(** * dialob-fill-api: the session reducer and its sync scheduler

    A shallow embedding of [src/session.ts] (class [Session]) and the
    properties of its action reducer, reverse-reference index, debounced
    action queue and listener lists.

    Modelling conventions.
    - JS objects used as dictionaries ([items], [valueSets],
      [reverseItemMap]) are finite maps of their own properties, keyed by
      strings.  A read of a key that is not an own property finds what the
      object inherits from [Object.prototype] ([constructor], [toString],
      ...): see [get_property].  Writing the key [__proto__] does not create
      an own property in JS; that one key is treated like any other here and
      is kept out of the statements below that quantify over ids.
    - A JS [Set<string>] is a duplicate-free list in insertion order, the
      order in which [forEach] visits it.
    - [produce] (immer) runs its recipe on a draft of the state; the session
      state is replaced only when the recipe returns normally.  Plain
      objects and arrays are drafted, [Set]s are not: [add] on a set the
      installed state holds acts on that very set, also when the batch
      throws afterwards.  See [Draft] and [add_in_place].
    - ITEM stores the item object of the action itself; what a later action
      of the same batch writes into it is seen by the session state, which
      is modelled, and by whoever holds the action, which is not: the value
      [sync] and [pull] resolve with is left out.  The actions of a batch
      are distinct objects, as they are in a response that was parsed.
    - Everything the session does to the outside (listener invocations,
      transport calls, timer calls) is appended to a trace.  Listeners and
      the transport are opaque: they do not call back into the session while
      they run.
    - [number] revisions are integers; timer handles are positive numbers, as
      the host returns them. *)

From Stdlib Require Import ZArith Lia.
From stdpp Require Import gmap strings list fin_maps.

Local Open Scope string_scope.
Local Open Scope list_scope.
Local Open Scope Z_scope.

(** ** Data model *)

(** Modelled from the spec: the declarations of [./actions] are not part of
    the sources.  An answer is a caller-defined value ([any]). *)
Inductive Value :=
| VNull
| VBool (b : bool)
| VNum (n : Z)
| VStr (s : string)
| VArr (l : list string).

(** Modelled from the spec: [SessionItem = ItemAction['item']].  Every item
    has an [id] and a [type]; container kinds carry [items], the ordered
    children; answerable kinds carry [value].  [None] is an absent (or
    null) property. *)
Record SessionItem := mkItem {
  item_id : string;
  item_type : string;
  item_items : option (list string);
  item_value : option Value
}.

(** Modelled from the spec: an opaque record emitted by the remote
    authority. *)
Record SessionError := mkError {
  error_id : string;
  error_code : string;
  error_description : string
}.

(** Modelled from the spec: an identified enumeration payload. *)
Record SessionValueSet := mkValueSet {
  valueSet_id : string;
  valueSet_entries : list (string * string)
}.

(** Modelled from the spec: the tagged union [Action] of [./actions], with
    the payload fields [applyActions] reads.  [OTHER tag] is an action object
    whose [type] is none of the ten tags the reducer knows. *)
Inductive Action :=
| RESET
| ANSWER (id : string) (answer : Value)
| ITEM (item : SessionItem)
| ERROR (error : SessionError)
| LOCALE (value : string)
| VALUE_SET (valueSet : SessionValueSet)
| REMOVE_ITEMS (ids : list string)
| COMPLETE
| NEXT
| PREVIOUS
| OTHER (tag : string).

Definition action_type (a : Action) : string :=
  match a with
  | RESET => "RESET"
  | ANSWER _ _ => "ANSWER"
  | ITEM _ => "ITEM"
  | ERROR _ => "ERROR"
  | LOCALE _ => "LOCALE"
  | VALUE_SET _ => "VALUE_SET"
  | REMOVE_ITEMS _ => "REMOVE_ITEMS"
  | COMPLETE => "COMPLETE"
  | NEXT => "NEXT"
  | PREVIOUS => "PREVIOUS"
  | OTHER tag => tag
  end.

Definition known_types : list string :=
  ["RESET"; "ANSWER"; "ITEM"; "ERROR"; "LOCALE"; "VALUE_SET";
   "REMOVE_ITEMS"; "COMPLETE"; "NEXT"; "PREVIOUS"].

(** [interface SessionState]. *)
Record SessionState := mkState {
  items : gmap string SessionItem;
  reverseItemMap : gmap string (list string);
  valueSets : gmap string SessionValueSet;
  errors : list SessionError;
  locale : option string;
  rev : Z;
  complete : bool
}.

(** Modelled from the spec: [./error] is not part of the sources.
    [DialobRequestError] is the distinguished request-error kind; an error
    built with [new DialobError(..)] is not an instance of it.  The type
    holds every value the code throws or catches: [TypeError_thrown] is the
    host's [TypeError] (a call of something that is not a function), which
    is an instance of neither class. *)
Inductive DialobError :=
| DialobError_new (message : string)
| DialobRequestError_new (message : string)
| TypeError_thrown.

Definition instanceof_DialobRequestError (e : DialobError) : bool :=
  match e with
  | DialobRequestError_new _ => true
  | DialobError_new _ => false
  | TypeError_thrown => false
  end.

Inductive SyncState := INPROGRESS | DONE.
Inductive ErrorType := CLIENT | SYNC.

(** [type Event = 'update' | 'sync' | 'error']. *)
Inductive Event := Ev_update | Ev_sync | Ev_error.

(** A listener is a function object; only its identity is modelled. *)
Definition Listener := nat.

Record Listeners := mkListeners {
  update_listeners : list Listener;
  sync_listeners : list Listener;
  error_listeners : list Listener
}.

(** Modelled from the spec: [DialobResponse] of [./transport]. *)
Record DialobResponse := mkResponse {
  response_actions : list Action;
  response_rev : Z
}.

(** The fields of [class Session] ([transport] is external). *)
Record Session := mkSession {
  session_id : string;
  state : SessionState;
  syncActionQueue : list Action;
  syncTimer : option positive;
  listeners : Listeners
}.

(** What the session does to the outside world. *)
Inductive Effect :=
| Call_update (l : Listener)
| Call_sync (l : Listener) (s : SyncState)
| Call_error (l : Listener) (t : ErrorType) (e : DialobError)
| Transport_update (sid : string) (actions : list Action) (r : Z)
| Transport_getFullState (sid : string)
| SetTimeout (handle : positive) (delay : Z)
| ClearTimeout (handle : positive).

(** The host: a clock in milliseconds, the table of armed timers (handle,
    deadline), the next handle [setTimeout] returns, and the trace.  A timer
    fires once the clock has reached its deadline, never before. *)
Record Host := mkHost {
  now : Z;
  timers : list (positive * Z);
  next_handle : positive;
  trace : list Effect
}.

Record World := mkWorld {
  sess : Session;
  host : Host
}.

(** ** Computations: state, trace and exceptions *)

Inductive Completion (A : Type) :=
| Normal (a : A)
| Throw (e : DialobError).
Arguments Normal {A} a.
Arguments Throw {A} e.

Definition M (A : Type) : Type := World -> Completion A * World.

#[global] Instance M_ret : MRet M := fun A a w => (Normal a, w).
#[global] Instance M_bind : MBind M := fun A B f m w =>
  match m w with
  | (Normal a, w') => f a w'
  | (Throw e, w') => (Throw e, w')
  end.

Definition throw {A} (e : DialobError) : M A := fun w => (Throw e, w).
Definition get_sess : M Session := fun w => (Normal (sess w), w).
Definition put_sess (s : Session) : M unit :=
  fun w => (Normal tt, mkWorld s (host w)).
Definition get_host : M Host := fun w => (Normal (host w), w).
Definition put_host (h : Host) : M unit :=
  fun w => (Normal tt, mkWorld (sess w) h).

Definition emit (es : list Effect) : M unit :=
  h ← get_host;
  put_host (mkHost (now h) (timers h) (next_handle h) (trace h ++ es)).

(** [for (const x of xs) body], threading the draft. *)
Fixpoint for_of {A S} (xs : list A) (body : A -> S -> M S) (s : S) : M S :=
  match xs with
  | [] => mret s
  | x :: xs' => s' ← body x s; for_of xs' body s'
  end.

(** ** Arrays and sets *)

(** [Array.prototype.indexOf]: the first index holding [x], or [-1]. *)
Fixpoint indexOf_from (x : string) (l : list string) (i : Z) : Z :=
  match l with
  | [] => -1
  | y :: l' => if String.eqb y x then i else indexOf_from x l' (i + 1)
  end.
Definition indexOf (x : string) (l : list string) : Z := indexOf_from x l 0.

(** [Array.prototype.findIndex] with the predicate [t => t === x]. *)
Fixpoint findIndex_from (x : Listener) (l : list Listener) (i : Z) : Z :=
  match l with
  | [] => -1
  | y :: l' => if Nat.eqb y x then i else findIndex_from x l' (i + 1)
  end.
Definition findIndex (x : Listener) (l : list Listener) : Z :=
  findIndex_from x l 0.

(** [Array.prototype.splice(start, deleteCount)]: a negative [start] counts
    from the end; both bounds are clamped to the array. *)
Definition splice {A} (start deleteCount : Z) (l : list A) : list A :=
  let len := Z.of_nat (length l) in
  let actualStart :=
    if start <? 0 then Z.max (len + start) 0 else Z.min start len in
  let actualDeleteCount :=
    Z.min (Z.max deleteCount 0) (len - actualStart) in
  take (Z.to_nat actualStart) l
    ++ drop (Z.to_nat (actualStart + actualDeleteCount)) l.

(** [Set.prototype.add]. *)
Definition set_add (x : string) (s : list string) : list string :=
  if bool_decide (x ∈ s) then s else s ++ [x].

(** ** The reducer *)

Definition set_items (st : SessionState) (m : gmap string SessionItem)
  : SessionState :=
  mkState m (reverseItemMap st) (valueSets st) (errors st) (locale st)
    (rev st) (complete st).
Definition set_reverseItemMap (st : SessionState)
  (m : gmap string (list string)) : SessionState :=
  mkState (items st) m (valueSets st) (errors st) (locale st) (rev st)
    (complete st).
Definition set_valueSets (st : SessionState)
  (m : gmap string SessionValueSet) : SessionState :=
  mkState (items st) (reverseItemMap st) m (errors st) (locale st) (rev st)
    (complete st).
Definition set_errors (st : SessionState) (l : list SessionError)
  : SessionState :=
  mkState (items st) (reverseItemMap st) (valueSets st) l (locale st)
    (rev st) (complete st).
Definition set_locale (st : SessionState) (l : option string)
  : SessionState :=
  mkState (items st) (reverseItemMap st) (valueSets st) (errors st) l
    (rev st) (complete st).
Definition set_rev (st : SessionState) (r : Z) : SessionState :=
  mkState (items st) (reverseItemMap st) (valueSets st) (errors st)
    (locale st) r (complete st).
Definition set_complete (st : SessionState) (b : bool) : SessionState :=
  mkState (items st) (reverseItemMap st) (valueSets st) (errors st)
    (locale st) (rev st) b.

Definition set_item_items (it : SessionItem) (l : option (list string))
  : SessionItem :=
  mkItem (item_id it) (item_type it) l (item_value it).
Definition set_item_value (it : SessionItem) (v : option Value)
  : SessionItem :=
  mkItem (item_id it) (item_type it) (item_items it) v.

(** The state built by the constructor. *)
Definition initial_state : SessionState :=
  mkState ∅ ∅ ∅ [] None 0 false.

(** The names of the properties every object inherits from
    [Object.prototype]. *)
Definition object_prototype_keys : list string :=
  ["constructor"; "hasOwnProperty"; "isPrototypeOf"; "propertyIsEnumerable";
   "toLocaleString"; "toString"; "valueOf"; "__defineGetter__";
   "__defineSetter__"; "__lookupGetter__"; "__lookupSetter__"; "__proto__"].

(** What [obj[key]] finds on an object used as a dictionary: an own
    property, a property inherited from [Object.prototype] (a function, or
    the prototype itself: truthy, and none of the values the dictionary
    stores), or [undefined]. *)
Inductive Property (V : Type) :=
| Own (v : V)
| Inherited
| Undefined.
Arguments Own {V} v.
Arguments Inherited {V}.
Arguments Undefined {V}.

Definition get_property {V} (m : gmap string V) (key : string) : Property V :=
  match m !! key with
  | Some v => Own v
  | None =>
      if bool_decide (key ∈ object_prototype_keys) then Inherited
      else Undefined
  end.

(** The draft a recipe works on: a copy of the state, and the ids whose
    [Set] in the draft's [reverseItemMap] is the very object the installed
    state holds (sets are not copied). *)
Record Draft := mkDraft {
  draft_state : SessionState;
  installed_sets : gset string
}.

Definition with_state (d : Draft) (st : SessionState) : Draft :=
  mkDraft st (installed_sets d).

(** [reverseItemMap[refId].add(parentId)] on a map in which
    [reverseItemMap[refId]] is a set, created empty when there was none. *)
Definition add_parent (parentId : string)
  (m : gmap string (list string)) (refId : string)
  : gmap string (list string) :=
  let m1 := match m !! refId with
            | None => <[refId := []]> m
            | Some _ => m
            end in
  alter (set_add parentId) refId m1.

(** The callback of [reverseItemMap[id].forEach] in the REMOVE_ITEMS
    branch.  The index is looked up for [reference], as the source does. *)
Definition remove_reference (m : gmap string SessionItem)
  (reference : string) : gmap string SessionItem :=
  match m !! reference with
  | None => m
  | Some referencedItem =>
      match item_items referencedItem with
      | None => m
      | Some children =>
          let idx := indexOf reference children in
          if idx =? -1 then m
          else <[reference :=
                   set_item_items referencedItem
                     (Some (splice idx 1 children))]> m
      end
  end.

(** What the body of [for (const id of action.ids)] makes of the state
    when [reverseItemMap[id]] is a set or undefined. *)
Definition removed (st : SessionState) (id : string) : SessionState :=
  let items1 := delete id (items st) in
  let items2 := match reverseItemMap st !! id with
                | Some refs => foldl remove_reference items1 refs
                | None => items1
                end in
  mkState items2 (delete id (reverseItemMap st)) (valueSets st) (errors st)
    (locale st) (rev st) (complete st).

Definition not_answerable (ty : string) : bool :=
  String.eqb ty "questionnaire" || String.eqb ty "group"
  || String.eqb ty "surveygroup" || String.eqb ty "note".

Definition handleError (e : DialobError) : M unit :=
  s ← get_sess;
  if instanceof_DialobRequestError e
  then emit (map (fun l => Call_error l SYNC e) (error_listeners (listeners s)))
  else emit (map (fun l => Call_error l CLIENT e) (error_listeners (listeners s))).

(** [add] on a set the installed state holds: the set is not drafted, so
    the installed state sees the new member at once. *)
Definition add_in_place (refId parentId : string) : M unit :=
  s ← get_sess;
  put_sess
    (mkSession (session_id s)
       (set_reverseItemMap (state s)
          (alter (set_add parentId) refId (reverseItemMap (state s))))
       (syncActionQueue s) (syncTimer s) (listeners s)).

(** One round of the loop of [insertReverseRef].  An inherited property is
    truthy, so no set is created for it, and it has no [add]. *)
Definition insertReverseRef_step (parentId : string) (refId : string)
  (d : Draft) : M Draft :=
  let st := draft_state d in
  match get_property (reverseItemMap st) refId with
  | Inherited => throw TypeError_thrown
  | Undefined =>
      mret (with_state d
              (set_reverseItemMap st
                 (add_parent parentId (reverseItemMap st) refId)))
  | Own _ =>
      (if bool_decide (refId ∈ installed_sets d)
       then add_in_place refId parentId
       else mret tt);;
      mret (with_state d
              (set_reverseItemMap st
                 (add_parent parentId (reverseItemMap st) refId)))
  end.

Definition insertReverseRef (d : Draft) (parentId : string)
  (refIds : list string) : M Draft :=
  for_of refIds (insertReverseRef_step parentId) d.

(** The body of [for (const id of action.ids)].  The item is deleted
    first; an inherited [reverseItemMap[id]] is truthy and has no
    [forEach]. *)
Definition remove_item (id : string) (d : Draft) : M Draft :=
  let st := draft_state d in
  match get_property (reverseItemMap st) id with
  | Inherited => throw TypeError_thrown
  | Own _ | Undefined =>
      mret (mkDraft (removed st id) (installed_sets d ∖ {[id]}))
  end.

(** The body of [for (const action of actions)], on the draft.  In the
    ANSWER branch an inherited [items[id]] is truthy and has no [type]: the
    value is written onto the inherited object and the draft stays as it
    is. *)
Definition applyAction (action : Action) (d : Draft) : M Draft :=
  let st := draft_state d in
  match action with
  | RESET =>
      mret (mkDraft (mkState ∅ ∅ ∅ [] None (rev st) false) ∅)
  | ANSWER id answer =>
      match get_property (items st) id with
      | Undefined =>
          throw (DialobError_new ("No item found with id '" +:+ id +:+ "'"))
      | Inherited => mret d
      | Own it =>
          if not_answerable (item_type it)
          then throw (DialobError_new ("Item '" +:+ id +:+ "' is not an answer!"))
          else mret (with_state d
                       (set_items st
                          (<[id := set_item_value it (Some answer)]>
                             (items st))))
      end
  | ITEM item =>
      let d1 := with_state d
                  (set_items st (<[item_id item := item]> (items st))) in
      match item_items item with
      | Some children => insertReverseRef d1 (item_id item) children
      | None => mret d1
      end
  | ERROR error => mret (with_state d (set_errors st (errors st ++ [error])))
  | LOCALE value => mret (with_state d (set_locale st (Some value)))
  | VALUE_SET valueSet =>
      mret (with_state d
              (set_valueSets st
                 (<[valueSet_id valueSet := valueSet]> (valueSets st))))
  | REMOVE_ITEMS ids => for_of ids remove_item d
  | COMPLETE => mret (with_state d (set_complete st true))
  | NEXT => mret d
  | PREVIOUS => mret d
  | OTHER _ =>
      handleError (DialobError_new "Unexpected action type!");; mret d
  end.

(** [if (rev)]: a supplied revision is used unless it is [0]. *)
Definition stamp_rev (r : option Z) (st : SessionState) : SessionState :=
  match r with
  | Some n => if n =? 0 then st else set_rev st n
  | None => st
  end.

(** immer's [produce]: the recipe works on a draft of [base], in which
    every set of [reverseItemMap] is still the installed one; the state of
    the draft is the next state.  When the recipe throws, nothing is
    installed: [base] stays, with what [add_in_place] did to its sets. *)
Definition produce (base : SessionState) (recipe : Draft -> M Draft)
  : M SessionState :=
  d ← recipe (mkDraft base (dom (reverseItemMap base)));
  mret (draft_state d).

Definition set_state (s : Session) (st : SessionState) : Session :=
  mkSession (session_id s) st (syncActionQueue s) (syncTimer s) (listeners s).
Definition set_syncActionQueue (s : Session) (q : list Action) : Session :=
  mkSession (session_id s) (state s) q (syncTimer s) (listeners s).
Definition set_syncTimer (s : Session) (t : option positive) : Session :=
  mkSession (session_id s) (state s) (syncActionQueue s) t (listeners s).
Definition set_listeners (s : Session) (ls : Listeners) : Session :=
  mkSession (session_id s) (state s) (syncActionQueue s) (syncTimer s) ls.

Definition applyActions (actions : list Action) (r : option Z)
  : M SessionState :=
  s ← get_sess;
  st' ← produce (state s)
          (fun draft =>
             for_of actions applyAction
               (with_state draft (stamp_rev r (draft_state draft))));
  s' ← get_sess;
  put_sess (set_state s' st');;
  emit (map Call_update (update_listeners (listeners s')));;
  mret st'.

(** [new Session(id, transport)] on a fresh host. *)
Definition new_session (id : string) : World :=
  mkWorld (mkSession id initial_state [] None (mkListeners [] [] []))
          (mkHost 0 [] 1%positive []).

(** ** Host timers *)

Definition setTimeout (delay : Z) : M positive :=
  h ← get_host;
  let handle := next_handle h in
  put_host (mkHost (now h) (timers h ++ [(handle, now h + delay)])
              (Pos.succ handle) (trace h ++ [SetTimeout handle delay]));;
  mret handle.

Definition disarm (handle : positive) (ts : list (positive * Z))
  : list (positive * Z) :=
  filter (fun t => t.1 ≠ handle) ts.

(** Clearing a handle that is not armed is a no-op on the table. *)
Definition clearTimeout (handle : positive) : M unit :=
  h ← get_host;
  put_host (mkHost (now h) (disarm handle (timers h)) (next_handle h)
              (trace h ++ [ClearTimeout handle])).

(** ** Syncing *)

(** [sync], up to its [await]: the transport call is issued and the
    method suspends. *)
Definition sync (actions : list Action) (r : Z) : M unit :=
  s ← get_sess;
  emit (map (fun l => Call_sync l INPROGRESS) (sync_listeners (listeners s)));;
  emit [Transport_update (session_id s) actions r].

(** [pull], up to its [await]. *)
Definition pull : M unit :=
  s ← get_sess;
  emit (map (fun l => Call_sync l INPROGRESS) (sync_listeners (listeners s)));;
  emit [Transport_getFullState (session_id s)].

(** [sync] and [pull] after the [await]: the transport has failed with [e]
    or answered with [response].  The promise resolves with the response
    object, into whose ITEM actions the batch may have written; that value
    is not modelled. *)
Definition resume (r : DialobError + DialobResponse) : M unit :=
  match r with
  | inl e => handleError e;; throw e
  | inr response =>
      applyActions (response_actions response) (Some (response_rev response));;
      s ← get_sess;
      emit (map (fun l => Call_sync l DONE) (sync_listeners (listeners s)))
  end.

Definition syncQueuedActions : M unit :=
  s ← get_sess;
  match syncTimer s with
  | Some t =>
      clearTimeout t;;
      s1 ← get_sess;
      put_sess (set_syncTimer s1 None)
  | None => mret tt
  end;;
  s2 ← get_sess;
  let queue := syncActionQueue s2 in
  put_sess (set_syncActionQueue s2 []);;
  s3 ← get_sess;
  sync queue (rev (state s3)).

Definition queueAction (action : Action) : M unit :=
  s ← get_sess;
  match syncTimer s with
  | Some t => clearTimeout t
  | None => mret tt
  end;;
  t ← setTimeout 500;
  s1 ← get_sess;
  put_sess (set_syncTimer s1 (Some t));;
  s2 ← get_sess;
  put_sess (set_syncActionQueue s2 (syncActionQueue s2 ++ [action]));;
  applyActions [action] None;;
  mret tt.

(** The host runs the callback of an armed timer and drops it from the
    table; the promise the callback returns is not awaited. *)
Definition fire_timer (handle : positive) : M unit :=
  h ← get_host;
  if bool_decide (handle ∈ (timers h).*1)
  then
    put_host (mkHost (now h) (disarm handle (timers h)) (next_handle h)
                (trace h));;
    syncQueuedActions
  else mret tt.

Definition due (t : Z) (ts : list (positive * Z)) : list positive :=
  (filter (fun e => e.2 <= t) ts).*1.

(** The clock moves on by [dt] and the timers that are due fire. *)
Definition advance (dt : Z) : M unit :=
  h ← get_host;
  put_host (mkHost (now h + dt) (timers h) (next_handle h) (trace h));;
  for_of (due (now h + dt) (timers h)) (fun handle _ => fire_timer handle) tt.

(** ** Convenience methods *)

Definition setAnswer (itemId : string) (answer : Value) : M unit :=
  queueAction (ANSWER itemId answer).
Definition complete_ : M unit := queueAction COMPLETE.
Definition next : M unit := queueAction NEXT.
Definition previous : M unit := queueAction PREVIOUS.

Definition getItem (id : string) (s : Session) : option SessionItem :=
  items (state s) !! id.
Definition getValueSet (id : string) (s : Session) : option SessionValueSet :=
  valueSets (state s) !! id.
Definition isComplete (s : Session) : bool := complete (state s).

(** ** Event listeners *)

Definition listeners_of (ty : Event) (ls : Listeners) : list Listener :=
  match ty with
  | Ev_update => update_listeners ls
  | Ev_sync => sync_listeners ls
  | Ev_error => error_listeners ls
  end.

Definition with_listeners (ty : Event) (target : list Listener)
  (ls : Listeners) : Listeners :=
  match ty with
  | Ev_update => mkListeners target (sync_listeners ls) (error_listeners ls)
  | Ev_sync => mkListeners (update_listeners ls) target (error_listeners ls)
  | Ev_error => mkListeners (update_listeners ls) (sync_listeners ls) target
  end.

Definition on (ty : Event) (listener : Listener) : M unit :=
  s ← get_sess;
  let target := listeners_of ty (listeners s) in
  put_sess (set_listeners s (with_listeners ty (target ++ [listener]) (listeners s))).

Definition removeListener (ty : Event) (listener : Listener) : M unit :=
  s ← get_sess;
  let target := listeners_of ty (listeners s) in
  let idx := findIndex listener target in
  put_sess (set_listeners s (with_listeners ty (splice idx 1 target) (listeners s))).

(** ** Vocabulary of the properties *)

(** [childId] is listed among the children of the container [parentId]. *)
Definition is_child_of (st : SessionState) (parentId childId : string)
  : bool :=
  match items st !! parentId with
  | Some it =>
      match item_items it with
      | Some children => bool_decide (childId ∈ children)
      | None => false
      end
  | None => false
  end.

(** [m[childId]] contains [parentId]. *)
Definition refs_contain (m : gmap string (list string))
  (childId parentId : string) : bool :=
  match m !! childId with
  | Some refs => bool_decide (parentId ∈ refs)
  | None => false
  end.

(** [reverseItemMap[childId]] contains [parentId]. *)
Definition is_referenced_by (st : SessionState) (childId parentId : string)
  : bool :=
  refs_contain (reverseItemMap st) childId parentId.

(** The index is the inverse of the containment edges. *)
Definition index_exact (st : SessionState) : Prop :=
  ∀ parentId childId,
    is_referenced_by st childId parentId = is_child_of st parentId childId.

(** Every containment edge has its reverse edge. *)
Definition index_covers (st : SessionState) : Prop :=
  ∀ parentId childId,
    is_child_of st parentId childId = true →
    is_referenced_by st childId parentId = true.

(** [items[id]] exists and is of an answerable kind. *)
Definition answerable_at (st : SessionState) (id : string) : bool :=
  match items st !! id with
  | Some it => negb (not_answerable (item_type it))
  | None => false
  end.

Definition is_removal (a : Action) : bool :=
  match a with
  | REMOVE_ITEMS _ => true
  | _ => false
  end.

(** Snapshots reachable from the empty one by [applyActions]: the state
    a batch installs, and the state a batch that throws leaves behind. *)
Inductive reachable_state : SessionState → Prop :=
| reachable_initial : reachable_state initial_state
| reachable_apply w actions r st' w' :
    reachable_state (state (sess w)) →
    applyActions actions r w = (Normal st', w') →
    reachable_state st'
| reachable_throw w actions r e w' :
    reachable_state (state (sess w)) →
    applyActions actions r w = (Throw e, w') →
    reachable_state (state (sess w')).

(** The same, by batches that hold no REMOVE_ITEMS action. *)
Inductive reachable_without_removal : SessionState → Prop :=
| reachable_nr_initial : reachable_without_removal initial_state
| reachable_nr_apply w actions r st' w' :
    reachable_without_removal (state (sess w)) →
    existsb is_removal actions = false →
    applyActions actions r w = (Normal st', w') →
    reachable_without_removal st'
| reachable_nr_throw w actions r e w' :
    reachable_without_removal (state (sess w)) →
    existsb is_removal actions = false →
    applyActions actions r w = (Throw e, w') →
    reachable_without_removal (state (sess w')).

(** The world in which the sets of the installed [reverseItemMap] have
    become [m]. *)
Definition with_installed_refs (w : World) (m : gmap string (list string))
  : World :=
  mkWorld
    (mkSession (session_id (sess w))
       (set_reverseItemMap (state (sess w)) m)
       (syncActionQueue (sess w)) (syncTimer (sess w)) (listeners (sess w)))
    (host w).

(** [m'] has the entries of [m], each with at least the members it had. *)
Definition refs_grow (m m' : gmap string (list string)) : Prop :=
  dom m' = dom m
  ∧ ∀ c p, refs_contain m c p = true → refs_contain m' c p = true.

(** The world after more effects were traced. *)
Definition add_trace (w : World) (tr : list Effect) : World :=
  mkWorld (sess w)
    (mkHost (now (host w)) (timers (host w)) (next_handle (host w))
       (trace (host w) ++ tr)).

Definition is_notification (e : Effect) : bool :=
  match e with
  | Call_update _ | Call_sync _ _ | Call_error _ _ _ => true
  | _ => false
  end.

(** A trace that holds listener invocations only. *)
Definition notifications (tr : list Effect) : Prop :=
  Forall (fun e => is_notification e = true) tr.

(** The transport calls, the armings and the cancellations of a trace. *)
Definition transport_calls (tr : list Effect) : list Effect :=
  List.filter (fun e => match e with
                        | Transport_update _ _ _ | Transport_getFullState _ => true
                        | _ => false
                        end) tr.
Definition sync_calls (tr : list Effect) : list Effect :=
  List.filter (fun e => match e with Call_sync _ _ => true | _ => false end) tr.
Definition error_calls (tr : list Effect) : list Effect :=
  List.filter (fun e => match e with Call_error _ _ _ => true | _ => false end) tr.
Definition armings (tr : list Effect) : nat :=
  length (List.filter (fun e => match e with SetTimeout _ _ => true | _ => false end) tr).
Definition cancellations (tr : list Effect) : nat :=
  length (List.filter (fun e => match e with ClearTimeout _ => true | _ => false end) tr).

(** What can happen to a session: the public methods, the passing of
    time, and the settling of a transport call. *)
Inductive Call :=
| Do_on (ty : Event) (listener : Listener)
| Do_removeListener (ty : Event) (listener : Listener)
| Do_setAnswer (itemId : string) (answer : Value)
| Do_complete
| Do_next
| Do_previous
| Do_pull
| Do_advance (dt : Z)
| Do_resume (r : DialobError + DialobResponse).

Definition perform (c : Call) : M unit :=
  match c with
  | Do_on ty l => on ty l
  | Do_removeListener ty l => removeListener ty l
  | Do_setAnswer itemId answer => setAnswer itemId answer
  | Do_complete => complete_
  | Do_next => next
  | Do_previous => previous
  | Do_pull => pull
  | Do_advance dt => advance dt
  | Do_resume r => resume r
  end.

Definition admissible (c : Call) : Prop :=
  match c with
  | Do_advance dt => 0 <= dt
  | _ => True
  end.

(** The worlds a session can be in; an exception thrown to the caller
    leaves the world as the call left it. *)
Inductive reachable : World → Prop :=
| reachable_new id : reachable (new_session id)
| reachable_perform w c :
    reachable w → admissible c → reachable (snd (perform c w)).

(** The session holds the one armed timer exactly while actions are
    pending. *)
Definition debounce_inv (w : World) : Prop :=
  match syncTimer (sess w) with
  | Some t =>
      (∃ d, timers (host w) = [(t, d)]) ∧ syncActionQueue (sess w) ≠ []
  | None => timers (host w) = [] ∧ syncActionQueue (sess w) = []
  end.

(** No timer is armed and nothing is queued. *)
Definition idle (w : World) : Prop :=
  syncTimer (sess w) = None ∧ timers (host w) = []
  ∧ syncActionQueue (sess w) = [].

(** The session holds the one armed timer, due [delay] from now. *)
Definition armed_for (delay : Z) (w : World) : Prop :=
  ∃ h, syncTimer (sess w) = Some h
       ∧ timers (host w) = [(h, now (host w) + delay)].

(** A caller enqueues [c.2], [c.1] milliseconds after the previous event;
    an exception of the optimistic apply is the caller's to handle. *)
Definition enqueue_after (w : World) (c : Z * Action) : World :=
  snd (queueAction c.2 (snd (advance c.1 w))).

Definition run_calls (calls : list (Z * Action)) (w : World) : World :=
  foldl enqueue_after w calls.

(** What ANSWER makes of the snapshot when it succeeds. *)
Definition answered (st : SessionState) (id : string) (it : SessionItem)
  (v : Value) : SessionState :=
  set_items st (<[id := set_item_value it (Some v)]> (items st)).

(** ** Further vocabulary *)

Definition is_reset (a : Action) : bool :=
  match a with
  | RESET => true
  | _ => false
  end.

(** NEXT and PREVIOUS, the protocol markers. *)
Definition is_navigation (a : Action) : bool :=
  match a with
  | NEXT | PREVIOUS => true
  | _ => false
  end.

(** The errors the ERROR actions of a batch carry, in order. *)
Definition error_payloads (actions : list Action) : list SessionError :=
  flat_map (fun a => match a with
                     | ERROR error => [error]
                     | _ => []
                     end) actions.

(** The listener invocations one action of a batch causes: the error
    listeners are called for an action of unknown type, and never else. *)
Definition reported (ls : Listeners) (a : Action) : list Effect :=
  match a with
  | OTHER _ =>
      map (fun l => Call_error l CLIENT
                      (DialobError_new "Unexpected action type!"))
          (error_listeners ls)
  | _ => []
  end.

Definition is_resume (c : Call) : bool :=
  match c with
  | Do_resume _ => true
  | _ => false
  end.

(** No armed timer is due later than one quiet window from now. *)
Definition deadlines_within (delay : Z) (w : World) : Prop :=
  ∀ h d, (h, d) ∈ timers (host w) → d <= now (host w) + delay.

Definition is_complete_action (a : Action) : bool :=
  match a with
  | COMPLETE => true
  | _ => false
  end.

(** ANSWER at [id] throws: [items[id]] is undefined, or an item of a kind
    that takes no answer. *)
Definition rejected_at (st : SessionState) (id : string) : bool :=
  match get_property (items st) id with
  | Own it => not_answerable (item_type it)
  | Inherited => false
  | Undefined => true
  end.

(** The key names no property inherited from [Object.prototype]. *)
Definition plain_key (key : string) : bool :=
  negb (bool_decide (key ∈ object_prototype_keys)).

(** All fields of the snapshot but the index. *)
Definition same_but_index (st st' : SessionState) : Prop :=
  items st' = items st
  ∧ valueSets st' = valueSets st
  ∧ errors st' = errors st
  ∧ locale st' = locale st
  ∧ rev st' = rev st
  ∧ complete st' = complete st.

(** The draft a batch starts from. *)
Definition first_draft (r : option Z) (w : World) : Draft :=
  mkDraft (stamp_rev r (state (sess w)))
    (dom (reverseItemMap (state (sess w)))).

(** * Properties *)

Ltac munfold :=
  unfold mbind, mret, M_bind, M_ret, throw, get_sess, put_sess, get_host,
    put_host, emit in *.

(** ** Basic facts about the reducer *)

Lemma add_trace_nil w : add_trace w [] = w.
Proof.
  destruct w as [s [n ts nh tr]]. unfold add_trace. simpl.
  by rewrite app_nil_r.
Qed.

Lemma add_trace_app w t1 t2 :
  add_trace (add_trace w t1) t2 = add_trace w (t1 ++ t2).
Proof. unfold add_trace. simpl. by rewrite app_assoc. Qed.

Lemma notifications_map {A} (f : A → Effect) (l : list A) :
  (∀ x, is_notification (f x) = true) → notifications (map f l).
Proof. intros H. apply Forall_map, Forall_forall. intros x _. apply H. Qed.

Lemma handleError_run e w :
  handleError e w =
    (Normal tt,
     add_trace w
       (map (fun l => Call_error l
                        (if instanceof_DialobRequestError e then SYNC else CLIENT) e)
            (error_listeners (listeners (sess w))))).
Proof.
  unfold handleError. munfold. simpl.
  destruct (instanceof_DialobRequestError e); reflexivity.
Qed.

(** *** Sets that are written in place *)

Lemma with_installed_refs_id w :
  with_installed_refs w (reverseItemMap (state (sess w))) = w.
Proof. by destruct w as [[sid [] q t ls] h]. Qed.

Lemma with_installed_refs_twice w m1 m2 :
  with_installed_refs (with_installed_refs w m1) m2 = with_installed_refs w m2.
Proof. reflexivity. Qed.

Lemma with_installed_refs_add_trace w m tr :
  with_installed_refs (add_trace w tr) m = add_trace (with_installed_refs w m) tr.
Proof. reflexivity. Qed.

Lemma refs_grow_refl m : refs_grow m m.
Proof. by split. Qed.

Lemma refs_grow_trans m1 m2 m3 :
  refs_grow m1 m2 → refs_grow m2 m3 → refs_grow m1 m3.
Proof.
  intros [D1 H1] [D2 H2]. split; [congruence|].
  intros c p H. by apply H2, H1.
Qed.

Lemma refs_contain_true m c p :
  refs_contain m c p = true ↔ ∃ refs, m !! c = Some refs ∧ p ∈ refs.
Proof.
  unfold refs_contain. split.
  - destruct (m !! c) as [refs|]; [|done].
    intros H. apply bool_decide_eq_true in H. by exists refs.
  - intros (refs & -> & H). by apply bool_decide_eq_true.
Qed.

Lemma set_add_keeps x s p : p ∈ s → p ∈ set_add x s.
Proof. unfold set_add. case_bool_decide; [done|]. set_solver. Qed.

Lemma set_add_adds x s : x ∈ set_add x s.
Proof. unfold set_add. case_bool_decide; [done|]. set_solver. Qed.

Lemma refs_grow_alter m refId parentId :
  refs_grow m (alter (set_add parentId) refId m).
Proof.
  split; [apply dom_alter_L|].
  intros c p. rewrite !refs_contain_true. intros (refs & Hc & Hp).
  destruct (decide (c = refId)) as [->|Hne].
  - rewrite lookup_alter_eq, Hc. simpl. eexists. split; [reflexivity|].
    by apply set_add_keeps.
  - rewrite lookup_alter_ne by done. by exists refs.
Qed.

Lemma add_in_place_run refId parentId w :
  add_in_place refId parentId w
  = (Normal tt,
     with_installed_refs w
       (alter (set_add parentId) refId (reverseItemMap (state (sess w))))).
Proof. reflexivity. Qed.

(** A round of [insertReverseRef] shows the world nothing but a member
    added to a set of the installed state. *)
Lemma insertReverseRef_step_world parentId refId d w :
  ∃ m, refs_grow (reverseItemMap (state (sess w))) m
       ∧ snd (insertReverseRef_step parentId refId d w)
         = with_installed_refs w m.
Proof.
  unfold insertReverseRef_step.
  destruct (get_property _ refId) as [refs| |].
  - case_bool_decide.
    + eexists. split; [apply refs_grow_alter|]. reflexivity.
    + exists (reverseItemMap (state (sess w))).
      split; [apply refs_grow_refl|]. by rewrite with_installed_refs_id.
  - exists (reverseItemMap (state (sess w))).
    split; [apply refs_grow_refl|]. by rewrite with_installed_refs_id.
  - exists (reverseItemMap (state (sess w))).
    split; [apply refs_grow_refl|]. by rewrite with_installed_refs_id.
Qed.

Lemma insertReverseRef_world parentId refIds : ∀ d w,
  ∃ m, refs_grow (reverseItemMap (state (sess w))) m
       ∧ snd (insertReverseRef d parentId refIds w) = with_installed_refs w m.
Proof.
  unfold insertReverseRef.
  induction refIds as [|r refIds IH]; intros d w; simpl.
  - exists (reverseItemMap (state (sess w))).
    split; [apply refs_grow_refl|]. by rewrite with_installed_refs_id.
  - munfold. destruct (insertReverseRef_step_world parentId r d w)
      as (m1 & G1 & H1).
    destruct (insertReverseRef_step parentId r d w) as [[d1|e] w1];
      simpl in H1; subst w1.
    + destruct (IH d1 (with_installed_refs w m1)) as (m2 & G2 & H2).
      exists m2. split; [by eapply refs_grow_trans|].
      by rewrite H2.
    + by exists m1.
Qed.

(** Removing items shows the world nothing. *)
Lemma remove_items_world ids : ∀ d w, snd (for_of ids remove_item d w) = w.
Proof.
  induction ids as [|i ids IH]; intros d w; simpl; [done|].
  munfold. unfold remove_item at 1.
  destruct (get_property _ i); simpl; by rewrite ?IH.
Qed.

Lemma notifications_reported ls actions :
  notifications (flat_map (reported ls) actions).
Proof.
  apply Forall_flat_map, Forall_forall. intros a _.
  destruct a; simpl; try constructor. by apply notifications_map.
Qed.

(** An action reads and writes the draft; the world sees the members it
    adds to sets of the installed state and the notifications of the error
    listeners for an unknown action, and nothing else. *)
Lemma applyAction_world a d w :
  ∃ m, refs_grow (reverseItemMap (state (sess w))) m
       ∧ snd (applyAction a d w)
         = add_trace (with_installed_refs w m)
             (reported (listeners (sess w)) a).
Proof.
  assert (Hsame : ∀ tr w', w' = add_trace w tr →
            ∃ m, refs_grow (reverseItemMap (state (sess w))) m
                 ∧ w' = add_trace (with_installed_refs w m) tr).
  { intros tr w' ->. exists (reverseItemMap (state (sess w))).
    split; [apply refs_grow_refl|]. by rewrite with_installed_refs_id. }
  destruct a; simpl; try (apply Hsame; by rewrite add_trace_nil).
  - apply Hsame. rewrite add_trace_nil.
    by destruct (get_property _ id) as [it| |]; [destruct (not_answerable _)| |].
  - destruct (item_items item) as [children|];
      [|apply Hsame; by rewrite add_trace_nil].
    destruct (insertReverseRef_world (item_id item) children
                (with_state d
                   (set_items (draft_state d)
                      (<[item_id item:=item]> (items (draft_state d))))) w)
      as (m & G & H).
    exists m. split; [done|]. by rewrite H, add_trace_nil.
  - apply Hsame. by rewrite add_trace_nil, remove_items_world.
  - apply Hsame. reflexivity.
Qed.

Lemma for_of_applyAction_world actions : ∀ d w,
  ∃ m, refs_grow (reverseItemMap (state (sess w))) m
       ∧ match for_of actions applyAction d w with
         | (Normal _, w') =>
             w' = add_trace (with_installed_refs w m)
                    (flat_map (reported (listeners (sess w))) actions)
         | (Throw _, w') =>
             ∃ n, w' = add_trace (with_installed_refs w m)
                         (flat_map (reported (listeners (sess w)))
                            (take n actions))
         end.
Proof.
  induction actions as [|a actions IH]; intros d w; simpl.
  - munfold. exists (reverseItemMap (state (sess w))).
    split; [apply refs_grow_refl|].
    by rewrite with_installed_refs_id, add_trace_nil.
  - munfold. destruct (applyAction_world a d w) as (m1 & G1 & H1).
    destruct (applyAction a d w) as [[d1|e] w1]; simpl in H1; subst w1.
    + destruct (IH d1 (add_trace (with_installed_refs w m1)
                         (reported (listeners (sess w)) a)))
        as (m2 & G2 & H2).
      exists m2. split; [by eapply refs_grow_trans|].
      destruct (for_of actions applyAction d1 _) as [[d2|e] w2].
      * rewrite H2. unfold add_trace, with_installed_refs. simpl.
        by rewrite app_assoc.
      * destruct H2 as [n ->]. exists (S n).
        unfold add_trace, with_installed_refs. simpl. by rewrite app_assoc.
    + exists m1. split; [done|]. exists 1%nat. simpl. by rewrite app_nil_r.
Qed.

(** *** What the loops make of the draft *)

(** When [insertReverseRef] completes, the draft holds the index with the
    parent added under every id of the list. *)
Lemma insertReverseRef_result parentId refIds : ∀ d w d' w',
  insertReverseRef d parentId refIds w = (Normal d', w') →
  d' = with_state d
         (set_reverseItemMap (draft_state d)
            (foldl (add_parent parentId) (reverseItemMap (draft_state d))
               refIds)).
Proof.
  unfold insertReverseRef.
  induction refIds as [|r refIds IH]; intros d w d' w'; simpl.
  - munfold. intros [= <- _]. by destruct d as [[] ?].
  - munfold. destruct (insertReverseRef_step parentId r d w)
      as [[d1|e] w1] eqn:E; [|done].
    intros H. apply IH in H. subst d'.
    unfold insertReverseRef_step in E. munfold.
    destruct (get_property _ r) as [refs| |]; [| done |].
    + destruct (bool_decide _); simpl in E; by injection E as <- _.
    + by injection E as <- _.
Qed.

(** It completes when no id of the list names an inherited property. *)
Lemma insertReverseRef_plain parentId refIds : ∀ d w,
  forallb plain_key refIds = true →
  ∃ d' w', insertReverseRef d parentId refIds w = (Normal d', w').
Proof.
  unfold insertReverseRef.
  induction refIds as [|r refIds IH]; intros d w Hp; simpl.
  - by eexists _, _.
  - simpl in Hp. apply andb_true_iff in Hp as [Hr Hp]. munfold.
    assert (Hstep : ∃ d1 w1,
              insertReverseRef_step parentId r d w = (Normal d1, w1)).
    { unfold insertReverseRef_step, get_property. munfold.
      unfold plain_key in Hr. apply negb_true_iff in Hr. rewrite Hr.
      destruct (_ !! r); [destruct (bool_decide (r ∈ installed_sets d))|];
        by eexists _, _. }
    destruct Hstep as (d1 & w1 & ->). by apply IH.
Qed.

(** When the loop of REMOVE_ITEMS completes, the draft holds the state
    with every id removed in turn. *)
Lemma remove_items_result ids : ∀ d w d' w',
  for_of ids remove_item d w = (Normal d', w') →
  draft_state d' = foldl removed (draft_state d) ids.
Proof.
  induction ids as [|i ids IH]; intros d w d' w'; simpl.
  - munfold. by intros [= <- _].
  - munfold. unfold remove_item at 1.
    destruct (get_property _ i); simpl; try done;
      intros H; by apply IH in H.
Qed.

Lemma remove_items_plain ids : ∀ d w,
  forallb plain_key ids = true →
  ∃ d', for_of ids remove_item d w = (Normal d', w)
        ∧ draft_state d' = foldl removed (draft_state d) ids.
Proof.
  induction ids as [|i ids IH]; intros d w Hp; simpl.
  - by eexists.
  - simpl in Hp. apply andb_true_iff in Hp as [Hi Hp]. munfold.
    unfold remove_item at 1, get_property.
    unfold plain_key in Hi. apply negb_true_iff in Hi. rewrite Hi.
    destruct (_ !! i); simpl; by apply IH.
Qed.

Lemma foldl_removed_rev ids : ∀ st, rev (foldl removed st ids) = rev st.
Proof. induction ids as [|i ids IH]; intros st; simpl; [done|by rewrite IH]. Qed.

(** No action touches [rev]. *)
Lemma applyAction_rev a d w d' w' :
  applyAction a d w = (Normal d', w') →
  rev (draft_state d') = rev (draft_state d).
Proof.
  destruct a; simpl; munfold; simpl; intros H;
    try (injection H as <- _; reflexivity).
  - destruct (get_property _ id) as [it| |];
      [destruct (not_answerable _)| |]; try discriminate;
      by injection H as <- _.
  - destruct (item_items item) as [children|]; [|by injection H as <- _].
    apply insertReverseRef_result in H. by subst d'.
  - apply remove_items_result in H. rewrite H. apply foldl_removed_rev.
Qed.

Lemma for_of_applyAction_rev actions : ∀ d w d' w',
  for_of actions applyAction d w = (Normal d', w') →
  rev (draft_state d') = rev (draft_state d).
Proof.
  induction actions as [|a actions IH]; intros d w d' w'; simpl.
  - munfold. by intros [= <- _].
  - munfold. destruct (applyAction a d w) as [[d1|e] w1] eqn:E; [|done].
    intros H. apply IH in H. apply applyAction_rev in E. congruence.
Qed.

(** [applyActions] installs the state of the draft and notifies the
    update listeners, unless the recipe throws. *)
Lemma applyActions_unfold actions r w :
  applyActions actions r w
  = match for_of actions applyAction (first_draft r w) w with
    | (Normal d', w1) =>
        (Normal (draft_state d'),
         add_trace (mkWorld (set_state (sess w1) (draft_state d')) (host w1))
           (map Call_update (update_listeners (listeners (sess w1)))))
    | (Throw e, w1) => (Throw e, w1)
    end.
Proof.
  unfold applyActions, produce, first_draft. munfold. simpl.
  by destruct (for_of actions applyAction _ w) as [[d'|e] w1].
Qed.

(** The outcome of a batch, seen from the session: a batch that throws
    has at most added members to sets of the installed index; a batch that
    completes installs the reduced state. *)
Lemma applyActions_cases actions r w :
  (∃ e m tr, notifications tr
             ∧ refs_grow (reverseItemMap (state (sess w))) m
             ∧ applyActions actions r w
               = (Throw e, add_trace (with_installed_refs w m) tr))
  ∨ (∃ st' tr, notifications tr
       ∧ rev st' = rev (stamp_rev r (state (sess w)))
       ∧ applyActions actions r w =
           (Normal st',
            add_trace (mkWorld (set_state (sess w) st') (host w)) tr)).
Proof.
  rewrite applyActions_unfold.
  destruct (for_of_applyAction_world actions (first_draft r w) w)
    as (m & G & H).
  destruct (for_of actions applyAction _ w) as [[d'|e] w1] eqn:E.
  - right. subst w1.
    exists (draft_state d'),
      (flat_map (reported (listeners (sess w))) actions
       ++ map Call_update (update_listeners (listeners (sess w)))).
    split; [|split].
    + apply Forall_app. split; [apply notifications_reported|].
      by apply notifications_map.
    + by apply for_of_applyAction_rev in E.
    + unfold add_trace, with_installed_refs. simpl. by rewrite app_assoc.
  - left. destruct H as [n ->]. exists e, m. eexists.
    split; [apply notifications_reported|]. by split.
Qed.

(** The result of a batch is the result of its loop. *)
Lemma applyActions_normal actions r w st' w' :
  applyActions actions r w = (Normal st', w') →
  ∃ d' w1, for_of actions applyAction (first_draft r w) w = (Normal d', w1)
           ∧ st' = draft_state d'.
Proof.
  rewrite applyActions_unfold.
  destruct (for_of actions applyAction _ w) as [[d1|e] w1]; [|done].
  intros [= <- _]. by exists d1, w1.
Qed.
(** ** RESET *)

(** C6: applying a RESET action, with no revision supplied, yields empty
    [items], [reverseItemMap] and [valueSets], no [errors], no [locale],
    [complete = false], and the [rev] the snapshot had. *)
Theorem reset_clears_all_but_rev (w : World) :
  ∃ w',
    applyActions [RESET] None w = (Normal (state (sess w')), w')
    ∧ items (state (sess w')) = ∅
    ∧ reverseItemMap (state (sess w')) = ∅
    ∧ valueSets (state (sess w')) = ∅
    ∧ errors (state (sess w')) = []
    ∧ locale (state (sess w')) = None
    ∧ complete (state (sess w')) = false
    ∧ rev (state (sess w')) = rev (state (sess w)).
Proof.
  exists (snd (applyActions [RESET] None w)). split; [reflexivity|].
  simpl. repeat split.
Qed.

(** The same on any draft, that is wherever RESET stands in a batch: what
    the actions before it did is forgotten, except for [rev]. *)
Lemma applyAction_reset d w :
  applyAction RESET d w
  = (Normal (mkDraft (mkState ∅ ∅ ∅ [] None (rev (draft_state d)) false) ∅),
     w).
Proof. reflexivity. Qed.

(** ** Unknown action types *)

(** C8: an action whose tag is none of the ten known ones is reported to
    the error listeners, classified CLIENT, with the error
    'Unexpected action type!'; nothing is thrown to the caller and the
    snapshot is installed as it was. *)
Theorem unexpected_action_is_reported (w : World) (a : Action) :
  action_type a ∉ known_types →
  (∀ draft,
     applyAction a draft w =
       (Normal draft,
        add_trace w
          (map (fun l => Call_error l CLIENT
                           (DialobError_new "Unexpected action type!"))
               (error_listeners (listeners (sess w))))))
  ∧ applyActions [a] None w =
      (Normal (state (sess w)),
       add_trace w
         (map (fun l => Call_error l CLIENT
                          (DialobError_new "Unexpected action type!"))
              (error_listeners (listeners (sess w)))
          ++ map Call_update (update_listeners (listeners (sess w))))).
Proof.
  intros Hty.
  destruct a;
    try (exfalso; apply Hty; apply (bool_decide_unpack _); vm_compute; exact I).
  split.
  - intros draft. reflexivity.
  - unfold applyActions, produce, handleError. munfold. simpl.
    destruct w as [[sid st q t ls] [n ts nh tr]]. unfold add_trace. simpl.
    by rewrite app_assoc.
Qed.

Lemma unexpected_action_is_reported_witness :
  (action_type (OTHER "SKIP") ∉ known_types)
  ∧ applyActions [OTHER "SKIP"] None
    (snd (on Ev_error 7%nat (new_session "s")))
  = (Normal initial_state,
     add_trace (snd (on Ev_error 7%nat (new_session "s")))
       [Call_error 7%nat CLIENT (DialobError_new "Unexpected action type!")]).
Proof.
  assert (H : action_type (OTHER "SKIP") ∉ known_types)
    by (apply (bool_decide_unpack _); vm_compute; exact I).
  split; [exact H|].
  exact (proj2 (unexpected_action_is_reported
                  (snd (on Ev_error 7%nat (new_session "s")))
                  (OTHER "SKIP") H)).
Defined.


(** ** ANSWER *)

Lemma answerable_at_true st id :
  answerable_at st id = true →
  ∃ it, items st !! id = Some it ∧ not_answerable (item_type it) = false.
Proof.
  unfold answerable_at. destruct (items st !! id) as [it|]; [|done].
  intros H. exists it. split; [done|]. by destruct (not_answerable _).
Qed.

Lemma applyActions_answer_rejected (w : World) (id : string) (v : Value) :
  rejected_at (state (sess w)) id = true →
  ∃ msg,
    (msg = "No item found with id '" +:+ id +:+ "'"
     ∨ msg = "Item '" +:+ id +:+ "' is not an answer!")
    ∧ applyActions [ANSWER id v] None w = (Throw (DialobError_new msg), w).
Proof.
  intros H. unfold rejected_at in H. rewrite applyActions_unfold.
  unfold first_draft. simpl. munfold.
  destruct (get_property (items (state (sess w))) id) as [it| |] eqn:E.
  - rewrite H. eexists. split; [right; reflexivity|]. reflexivity.
  - discriminate H.
  - eexists. split; [left; reflexivity|]. reflexivity.
Qed.

Lemma applyActions_answer_accepted (w : World) (id : string) (v : Value) :
  answerable_at (state (sess w)) id = true →
  ∃ it,
    items (state (sess w)) !! id = Some it
    ∧ applyActions [ANSWER id v] None w =
        (Normal (answered (state (sess w)) id it v),
         add_trace
           (mkWorld (set_state (sess w) (answered (state (sess w)) id it v))
              (host w))
           (map Call_update (update_listeners (listeners (sess w))))).
Proof.
  intros H. destruct (answerable_at_true _ _ H) as (it & E & N).
  exists it. split; [done|].
  rewrite applyActions_unfold. unfold first_draft. simpl. munfold.
  unfold get_property. rewrite E. simpl. rewrite N. reflexivity.
Qed.

(** At an id that names an inherited property and has no item, ANSWER
    finds the inherited object: nothing is thrown, the value lands outside
    the snapshot, which is installed as it was. *)
Lemma applyActions_answer_inherited (w : World) (id : string) (v : Value) :
  id ≠ "__proto__" →
  get_property (items (state (sess w))) id = Inherited →
  applyActions [ANSWER id v] None w
  = (Normal (state (sess w)),
     add_trace w (map Call_update (update_listeners (listeners (sess w))))).
Proof.
  intros _ H. rewrite applyActions_unfold. unfold first_draft. simpl.
  munfold. rewrite H. simpl. by destruct w as [[sid st q t ls] h].
Qed.




(** ** The revision *)

(** C4, as the code has it: a supplied revision other than 0 is the [rev]
    of the state a batch installs, also when actions of unknown type were
    reported to the error listeners on the way.  A batch that throws
    installs nothing: [rev] and every other field but [reverseItemMap] are
    what they were, and the sets of [reverseItemMap], which are written in
    place, have at most gained members. *)
Theorem rev_stamped_unless_batch_throws (w : World) (actions : list Action)
  (newRev : Z) :
  newRev ≠ 0 →
  match applyActions actions (Some newRev) w with
  | (Normal st', w') => state (sess w') = st' ∧ rev st' = newRev
  | (Throw _, w') =>
      same_but_index (state (sess w)) (state (sess w'))
      ∧ refs_grow (reverseItemMap (state (sess w)))
          (reverseItemMap (state (sess w')))
  end.
Proof.
  intros Hn.
  destruct (applyActions_cases actions (Some newRev) w)
    as [(e & m & tr & _ & G & ->)|(st' & tr & _ & Hrev & ->)].
  - split; [by repeat split|exact G].
  - split; [reflexivity|]. rewrite Hrev. simpl.
    destruct (Z.eqb_spec newRev 0); [done|reflexivity].
Qed.

Lemma rev_stamped_unless_batch_throws_witness :
  7 ≠ 0
  ∧ match applyActions [OTHER "SKIP"; COMPLETE] (Some 7) (new_session "s") with
    | (Normal st', w') => state (sess w') = st' ∧ rev st' = 7
    | (Throw _, w') =>
        same_but_index (state (sess (new_session "s"))) (state (sess w'))
        ∧ refs_grow (reverseItemMap (state (sess (new_session "s"))))
            (reverseItemMap (state (sess w')))
    end.
Proof.
  assert (H : 7 ≠ 0) by lia.
  split; [exact H|].
  exact (rev_stamped_unless_batch_throws (new_session "s")
           [OTHER "SKIP"; COMPLETE] 7 H).
Defined.

(** Without a revision, or with revision 0, a batch leaves [rev] alone. *)
Lemma rev_kept_without_revision (w : World) (actions : list Action)
  (r : option Z) :
  r = None ∨ r = Some 0 →
  rev (state (sess (snd (applyActions actions r w)))) = rev (state (sess w)).
Proof.
  intros Hr.
  destruct (applyActions_cases actions r w)
    as [(e & m & tr & _ & _ & ->)|(st' & tr & _ & Hrev & ->)]; [reflexivity|].
  simpl. rewrite Hrev. by destruct Hr as [-> | ->].
Qed.

(** C4, as stated, fails twice: revision 0 does not overwrite [rev], and
    the revision of a batch that throws is not visible afterwards. *)
Lemma rev_zero_ignored_and_lost_on_throw :
  let w5 := snd (applyActions [] (Some 5) (new_session "s")) in
  rev (state (sess w5)) = 5
  ∧ rev (state (sess (snd (applyActions [] (Some 0) w5)))) = 5
  ∧ fst (applyActions [ANSWER "a1" VNull] (Some 7) (new_session "s"))
    = Throw (DialobError_new "No item found with id 'a1'")
  ∧ rev (state (sess (snd (applyActions [ANSWER "a1" VNull] (Some 7)
                             (new_session "s"))))) = 0.
Proof. repeat split. Qed.

(** What a batch that throws leaves behind: the item of the batch is not
    installed, the parent it added to a set of the installed index is. *)
Lemma throwing_batch_leaves_added_parent :
  let w := snd (applyActions [ITEM (mkItem "q1" "group" (Some ["a1"]) None)]
                  None (new_session "s")) in
  let r := applyActions
             [ITEM (mkItem "q2" "group" (Some ["a1"; "b1"]) None);
              ANSWER "zz" VNull] (Some 7) w in
  fst r = Throw (DialobError_new "No item found with id 'zz'")
  ∧ reverseItemMap (state (sess w)) !! "a1" = Some ["q1"]
  ∧ reverseItemMap (state (sess (snd r))) !! "a1" = Some ["q1"; "q2"]
  ∧ reverseItemMap (state (sess (snd r))) !! "b1" = None
  ∧ items (state (sess (snd r))) !! "q2" = None
  ∧ rev (state (sess (snd r))) = 0.
Proof. vm_compute. repeat split. Qed.
(** ** Listener lists *)

Lemma findIndex_from_absent x l : ∀ i, x ∉ l → findIndex_from x l i = -1.
Proof.
  induction l as [|y l IH]; intros i Hx; simpl; [reflexivity|].
  apply not_elem_of_cons in Hx as [Hne Hx].
  destruct (Nat.eqb_spec y x); [congruence|]. by apply IH.
Qed.

Lemma splice_minus_one {A} (l : list A) : splice (-1) 1 l = removelast l.
Proof.
  unfold splice. simpl.
  destruct l as [|a l']; [reflexivity|].
  set (l := a :: l').
  assert (Hlen : (0 < length l)%nat) by (subst l; simpl; lia).
  replace (Z.max (Z.of_nat (length l) + -1) 0) with (Z.of_nat (length l - 1))
    by lia.
  replace (Z.min (Z.max 1 0) (Z.of_nat (length l) - Z.of_nat (length l - 1)))
    with 1 by lia.
  replace (Z.to_nat (Z.of_nat (length l - 1) + 1)) with (length l) by lia.
  rewrite Nat2Z.id, drop_all, app_nil_r.
  rewrite removelast_firstn_len. f_equal. lia.
Qed.

(** C9: removing a listener that is not subscribed to an event class drops
    the last, that is the most recently added, listener of that class
    (nothing when the class has none); the other classes are untouched. *)
Theorem removeListener_absent_drops_last (w : World) (ty : Event)
  (listener : Listener) :
  listener ∉ listeners_of ty (listeners (sess w)) →
  ∃ w',
    removeListener ty listener w = (Normal tt, w')
    ∧ listeners_of ty (listeners (sess w'))
      = removelast (listeners_of ty (listeners (sess w)))
    ∧ (∀ older recent,
         listeners_of ty (listeners (sess w)) = older ++ [recent] →
         listeners_of ty (listeners (sess w')) = older)
    ∧ (∀ ty', ty' ≠ ty →
         listeners_of ty' (listeners (sess w'))
         = listeners_of ty' (listeners (sess w))).
Proof.
  intros Habs. exists (snd (removeListener ty listener w)).
  split; [reflexivity|]. simpl.
  unfold findIndex. rewrite (findIndex_from_absent _ _ 0 Habs).
  rewrite splice_minus_one.
  assert (Hlast : listeners_of ty
                    (with_listeners ty
                       (removelast (listeners_of ty (listeners (sess w))))
                       (listeners (sess w)))
                  = removelast (listeners_of ty (listeners (sess w))))
    by (by destruct ty).
  split; [exact Hlast|]. split.
  - intros older recent Heq. rewrite Hlast, Heq. apply removelast_last.
  - intros ty' Hne. by destruct ty, ty'.
Qed.

Lemma removeListener_absent_drops_last_witness :
  let w := snd (on Ev_update 2%nat (snd (on Ev_update 1%nat (new_session "s")))) in
  (3%nat ∉ listeners_of Ev_update (listeners (sess w)))
  ∧ ∃ w',
      removeListener Ev_update 3%nat w = (Normal tt, w')
      ∧ listeners_of Ev_update (listeners (sess w')) = removelast [1%nat; 2%nat]
      ∧ (∀ older recent,
           listeners_of Ev_update (listeners (sess w)) = older ++ [recent] →
           listeners_of Ev_update (listeners (sess w')) = older)
      ∧ (∀ ty', ty' ≠ Ev_update →
           listeners_of ty' (listeners (sess w'))
           = listeners_of ty' (listeners (sess w))).
Proof.
  intros w.
  assert (H : 3%nat ∉ listeners_of Ev_update (listeners (sess w)))
    by (apply (bool_decide_unpack _); vm_compute; exact I).
  split; [exact H|].
  exact (removeListener_absent_drops_last w Ev_update 3%nat H).
Defined.


(** ** REMOVE_ITEMS *)

Lemma remove_reference_absent m reference id :
  m !! id = None → remove_reference m reference !! id = None.
Proof.
  intros Hid. unfold remove_reference.
  destruct (m !! reference) as [it|] eqn:E; [|done].
  destruct (item_items it) as [children|]; [|done].
  destruct (indexOf reference children =? -1); [done|].
  rewrite lookup_insert_ne; [done|]. intros ->. congruence.
Qed.

Lemma foldl_remove_reference_absent refs : ∀ m id,
  m !! id = None → foldl remove_reference m refs !! id = None.
Proof.
  induction refs as [|r refs IH]; intros m id H; simpl; [done|].
  by apply IH, remove_reference_absent.
Qed.

(** The two deletions of REMOVE_ITEMS take place for every snapshot. *)
Lemma remove_item_deletes (st : SessionState) (id : string) :
  items (removed st id) !! id = None
  ∧ reverseItemMap (removed st id) !! id = None.
Proof.
  unfold removed. simpl. split; [|apply lookup_delete_eq].
  destruct (reverseItemMap st !! id).
  - apply foldl_remove_reference_absent, lookup_delete_eq.
  - apply lookup_delete_eq.
Qed.

Lemma indexOf_from_absent x l : ∀ i, x ∉ l → indexOf_from x l i = -1.
Proof.
  induction l as [|y l IH]; intros i Hx; simpl; [reflexivity|].
  apply not_elem_of_cons in Hx as [Hne Hx].
  destruct (String.eqb_spec y x); [congruence|]. by apply IH.
Qed.

(** The callback looks for the parent's own id among the parent's
    children: a parent that does not list itself is left as it is. *)
Lemma remove_reference_keeps_children m reference it children :
  m !! reference = Some it →
  item_items it = Some children →
  reference ∉ children →
  remove_reference m reference = m.
Proof.
  intros Hm Hit Habs. unfold remove_reference. rewrite Hm, Hit.
  unfold indexOf. by rewrite indexOf_from_absent.
Qed.

(** C1 on the example of the specification: after ITEM q1 (a group with
    child a1), ITEM a1 and REMOVE_ITEMS [a1], [items] and
    [reverseItemMap] have lost a1, but a1 is still among the children of
    q1: the callback searched the children for q1, found nothing and
    returned. *)
Theorem remove_items_leaves_child_in_parent :
  let q1 := mkItem "q1" "group" (Some ["a1"]) None in
  let a1 := mkItem "a1" "text" None (Some VNull) in
  let w := snd (applyActions [ITEM q1; ITEM a1] None (new_session "s")) in
  let w' := snd (applyActions [REMOVE_ITEMS ["a1"]] None w) in
  is_child_of (state (sess w)) "q1" "a1" = true
  ∧ is_referenced_by (state (sess w)) "a1" "q1" = true
  ∧ items (state (sess w')) !! "a1" = None
  ∧ reverseItemMap (state (sess w')) !! "a1" = None
  ∧ items (state (sess w')) !! "q1" = Some q1
  ∧ is_child_of (state (sess w')) "q1" "a1" = true.
Proof. vm_compute. repeat split. Qed.

Lemma remove_reference_other m reference p :
  p ≠ reference → remove_reference m reference !! p = m !! p.
Proof.
  intros Hne. unfold remove_reference.
  destruct (m !! reference) as [it|]; [|done].
  destruct (item_items it) as [children|]; [|done].
  destruct (indexOf reference children =? -1); [done|].
  by rewrite lookup_insert_ne.
Qed.

(** The same for every snapshot: a container that does not list itself
    keeps all its children when one of them is removed. *)
Lemma remove_item_keeps_parent (st : SessionState) (id p : string)
  (it : SessionItem) (children : list string) :
  items st !! p = Some it →
  item_items it = Some children →
  p ∉ children →
  p ≠ id →
  items (removed st id) !! p = Some it.
Proof.
  intros Hp Hit Habs Hne. unfold removed. simpl.
  assert (H0 : delete id (items st) !! p = Some it)
    by by rewrite lookup_delete_ne.
  destruct (reverseItemMap st !! id) as [refs|]; [|done].
  revert H0. generalize (delete id (items st)).
  induction refs as [|r refs IH]; intros m Hm; simpl; [done|].
  apply IH. destruct (decide (p = r)) as [<-|Hr].
  - by rewrite (remove_reference_keeps_children m p it children).
  - by rewrite remove_reference_other.
Qed.


(** ** The reverse-reference index *)

Lemma is_child_of_true st p c :
  is_child_of st p c = true ↔
  ∃ it children,
    items st !! p = Some it ∧ item_items it = Some children ∧ c ∈ children.
Proof.
  unfold is_child_of. split.
  - destruct (items st !! p) as [it|]; [|done].
    destruct (item_items it) as [children|] eqn:E; [|done].
    intros H. apply bool_decide_eq_true in H. by exists it, children.
  - intros (it & children & -> & -> & H). by apply bool_decide_eq_true.
Qed.

Section ReverseRefs.

Variable parentId : string.

Lemma insertReverseRef_step_keeps m refId c p :
  refs_contain m c p = true →
  refs_contain (add_parent parentId m refId) c p = true.
Proof.
  rewrite !refs_contain_true. intros (refs & Hc & Hp).
  unfold add_parent.
  destruct (decide (c = refId)) as [->|Hne].
  - rewrite Hc. rewrite lookup_alter_eq, Hc. simpl.
    eexists. split; [reflexivity|]. by apply set_add_keeps.
  - exists refs. split; [|done].
    rewrite lookup_alter_ne by done.
    destruct (m !! refId); [done|]. by rewrite lookup_insert_ne.
Qed.

Lemma insertReverseRef_step_adds m refId :
  refs_contain (add_parent parentId m refId) refId parentId = true.
Proof.
  rewrite refs_contain_true. unfold add_parent.
  rewrite lookup_alter_eq.
  destruct (m !! refId) as [refs|] eqn:E.
  - rewrite E. simpl. eexists. split; [reflexivity|]. apply set_add_adds.
  - rewrite lookup_insert_eq. simpl. eexists. split; [reflexivity|].
    apply set_add_adds.
Qed.

Lemma insertReverseRef_keeps refIds : ∀ m c p,
  refs_contain m c p = true →
  refs_contain (foldl (add_parent parentId) m refIds) c p = true.
Proof.
  induction refIds as [|r refIds IH]; intros m c p H; simpl; [done|].
  by apply IH, insertReverseRef_step_keeps.
Qed.

Lemma insertReverseRef_adds refIds : ∀ m c,
  c ∈ refIds →
  refs_contain (foldl (add_parent parentId) m refIds) c parentId
  = true.
Proof.
  induction refIds as [|r refIds IH]; intros m c H; simpl.
  - by apply elem_of_nil in H.
  - apply elem_of_cons in H as [->|H].
    + apply insertReverseRef_keeps, insertReverseRef_step_adds.
    + by apply IH.
Qed.

End ReverseRefs.

(** An action other than REMOVE_ITEMS keeps every containment edge
    covered by its reverse edge. *)
Lemma applyAction_covers a d w d' w' :
  is_removal a = false →
  index_covers (draft_state d) →
  applyAction a d w = (Normal d', w') →
  index_covers (draft_state d').
Proof.
  intros Hrm Hcov. set (st := draft_state d) in *.
  destruct a; simpl; munfold; simpl; try discriminate Hrm;
    try (intros [= <- _]; exact Hcov).
  - intros [= <- _]. intros p c H. apply is_child_of_true in H.
    destruct H as (it & ch & Hit & _). simpl in Hit. by rewrite lookup_empty in Hit.
  - unfold get_property.
    destruct (items (draft_state d) !! id) as [it|] eqn:E;
      [|destruct (bool_decide _); [by intros [= <- _]|done]].
    destruct (not_answerable (item_type it)); [done|].
    intros [= <- _]. intros p c H.
    unfold is_referenced_by. simpl. apply (Hcov p c).
    apply is_child_of_true in H. apply is_child_of_true.
    destruct H as (it' & ch & Hit & Hch & Hc). simpl in Hit.
    destruct (decide (id = p)) as [->|Hne].
    + rewrite lookup_insert_eq in Hit. injection Hit as <-.
      by exists it, ch.
    + rewrite lookup_insert_ne in Hit by done. by exists it', ch.
  - assert (Hkeep : ∀ m' : gmap string (list string),
              (∀ c p, refs_contain (reverseItemMap st) c p = true →
                      refs_contain m' c p = true) →
              (∀ ch c, item_items item = Some ch → c ∈ ch →
                       refs_contain m' c (item_id item) = true) →
              index_covers
                (mkState (<[item_id item := item]> (items st)) m'
                   (valueSets st) (errors st) (locale st) (rev st)
                   (complete st))).
    { intros m' Hmono Hnew p c H. unfold is_referenced_by. simpl.
      apply is_child_of_true in H.
      destruct H as (it' & ch & Hit & Hch & Hc). simpl in Hit.
      destruct (decide (item_id item = p)) as [<-|Hne].
      - rewrite lookup_insert_eq in Hit. injection Hit as <-.
        by apply (Hnew ch).
      - rewrite lookup_insert_ne in Hit by done.
        apply Hmono, (Hcov p c). apply is_child_of_true. by exists it', ch. }
    destruct (item_items item) as [children|] eqn:E.
    + intros H. apply insertReverseRef_result in H. subst d'. simpl.
      apply Hkeep.
      * intros c p. apply insertReverseRef_keeps.
      * intros ch c [= <-]. apply insertReverseRef_adds.
    + intros [= <- _]. apply Hkeep; [done|]. intros ch c Hch. discriminate Hch.
Qed.

Lemma stamp_rev_covers r st : index_covers st → index_covers (stamp_rev r st).
Proof.
  intros H. destruct r as [n|]; simpl; [|done].
  destruct (n =? 0); [done|]. exact H.
Qed.

Lemma for_of_applyAction_covers actions : ∀ d w d' w',
  existsb is_removal actions = false →
  index_covers (draft_state d) →
  for_of actions applyAction d w = (Normal d', w') →
  index_covers (draft_state d').
Proof.
  induction actions as [|a actions IH]; intros d w d' w' Hrm Hcov; simpl.
  - munfold. by intros [= <- _].
  - simpl in Hrm. apply orb_false_iff in Hrm as [Ha Hrm]. munfold.
    destruct (applyAction a d w) as [[d1|e] w1] eqn:E; [|done].
    intros H. eapply IH; [done| |exact H].
    by eapply applyAction_covers.
Qed.

(** Members added to the sets of the index cover whatever was covered. *)
Lemma refs_grow_covers st m :
  index_covers st →
  refs_grow (reverseItemMap st) m →
  index_covers (set_reverseItemMap st m).
Proof.
  intros Hcov [_ G] p c H. unfold is_referenced_by. simpl.
  apply G, (Hcov p c). exact H.
Qed.

(** C2, as the code has it: in every snapshot reached from the empty one
    by batches without REMOVE_ITEMS, a container that lists a child is
    recorded in the child's entry of [reverseItemMap].  The converse is
    not maintained: ITEM only adds reverse edges. *)
Theorem index_covers_containment (st : SessionState) :
  reachable_without_removal st → index_covers st.
Proof.
  induction 1 as [|w actions r st' w' _ IH Hrm Happ
                  |w actions r e w' _ IH Hrm Happ].
  - intros p c H. apply is_child_of_true in H.
    destruct H as (it & ch & Hit & _). simpl in Hit.
    by rewrite lookup_empty in Hit.
  - apply applyActions_normal in Happ as (d' & w1 & Hfor & ->).
    eapply for_of_applyAction_covers; [exact Hrm| |exact Hfor].
    by apply stamp_rev_covers.
  - destruct (applyActions_cases actions r w)
      as [(e1 & m & tr & _ & G & H1)|(st1 & tr & _ & _ & H1)];
      rewrite H1 in Happ; [|discriminate].
    injection Happ as _ <-. simpl. by apply refs_grow_covers.
Qed.

Lemma index_covers_containment_witness :
  let st := state (sess (snd (applyActions
                                [ITEM (mkItem "q1" "group" (Some ["a1"]) None);
                                 ITEM (mkItem "a1" "text" None (Some VNull))]
                                None (new_session "s")))) in
  reachable_without_removal st
  ∧ index_covers st
  ∧ is_referenced_by st "a1" "q1" = true.
Proof.
  intros st.
  assert (H : reachable_without_removal st).
  { apply (reachable_nr_apply (new_session "s")
             [ITEM (mkItem "q1" "group" (Some ["a1"]) None);
              ITEM (mkItem "a1" "text" None (Some VNull))]
             None st
             (snd (applyActions
                     [ITEM (mkItem "q1" "group" (Some ["a1"]) None);
                      ITEM (mkItem "a1" "text" None (Some VNull))]
                     None (new_session "s")))).
    - exact reachable_nr_initial.
    - reflexivity.
    - reflexivity. }
  split; [exact H|]. split.
  - exact (index_covers_containment st H).
  - apply (index_covers_containment st H "q1" "a1"). reflexivity.
Defined.

(** C2, as stated, fails: after a container is upserted with fewer
    children, the index still names it as parent of the child it lost. *)
Lemma index_not_exact_after_upsert :
  ¬ (∀ st, reachable_state st → index_exact st).
Proof.
  intros H.
  pose (w' := snd (applyActions
                     [ITEM (mkItem "q1" "group" (Some ["a1"]) None);
                      ITEM (mkItem "q1" "group" (Some []) None)]
                     None (new_session "s"))).
  assert (R : reachable_state (state (sess w'))).
  { apply (reachable_apply (new_session "s")
             [ITEM (mkItem "q1" "group" (Some ["a1"]) None);
              ITEM (mkItem "q1" "group" (Some []) None)]
             None (state (sess w')) w').
    - exact reachable_initial.
    - reflexivity. }
  specialize (H _ R "q1" "a1"). vm_compute in H. discriminate H.
Qed.

(** Removing the parent leaves a stale entry as well. *)
Lemma index_not_exact_after_parent_removal :
  let w' := snd (applyActions
                   [ITEM (mkItem "q1" "group" (Some ["a1"]) None);
                    REMOVE_ITEMS ["q1"]]
                   None (new_session "s")) in
  is_referenced_by (state (sess w')) "a1" "q1" = true
  ∧ is_child_of (state (sess w')) "q1" "a1" = false.
Proof. vm_compute. split; reflexivity. Qed.

(** With REMOVE_ITEMS the covering is lost too: the child stays listed
    while its entry of the index is deleted. *)
Lemma index_cover_lost_by_removal :
  ¬ (∀ st, reachable_state st → index_covers st).
Proof.
  intros H.
  pose (w' := snd (applyActions
                     [ITEM (mkItem "q1" "group" (Some ["a1"]) None);
                      ITEM (mkItem "a1" "text" None (Some VNull));
                      REMOVE_ITEMS ["a1"]]
                     None (new_session "s"))).
  assert (R : reachable_state (state (sess w'))).
  { apply (reachable_apply (new_session "s")
             [ITEM (mkItem "q1" "group" (Some ["a1"]) None);
              ITEM (mkItem "a1" "text" None (Some VNull));
              REMOVE_ITEMS ["a1"]]
             None (state (sess w')) w').
    - exact reachable_initial.
    - reflexivity. }
  specialize (H _ R "q1" "a1"). vm_compute in H.
  specialize (H eq_refl). discriminate H.
Qed.

(** ** The action queue and its timer *)

Arguments transport_calls : simpl never.
Arguments sync_calls : simpl never.
Arguments armings : simpl never.
Arguments cancellations : simpl never.

Lemma transport_calls_notifications tr :
  notifications tr → transport_calls tr = [].
Proof.
  induction 1 as [|e tr He _ IH]; [reflexivity|].
  unfold transport_calls in *. simpl. rewrite IH. by destruct e.
Qed.

Lemma armings_notifications tr : notifications tr → armings tr = 0%nat.
Proof.
  induction 1 as [|e tr He _ IH]; [reflexivity|].
  unfold armings in *. simpl. by destruct e.
Qed.

Lemma cancellations_notifications tr :
  notifications tr → cancellations tr = 0%nat.
Proof.
  induction 1 as [|e tr He _ IH]; [reflexivity|].
  unfold cancellations in *. simpl. by destruct e.
Qed.

Lemma transport_calls_app t1 t2 :
  transport_calls (t1 ++ t2) = transport_calls t1 ++ transport_calls t2.
Proof. apply List.filter_app. Qed.

Lemma armings_app t1 t2 : armings (t1 ++ t2) = (armings t1 + armings t2)%nat.
Proof. unfold armings. by rewrite List.filter_app, length_app. Qed.

Lemma cancellations_app t1 t2 :
  cancellations (t1 ++ t2) = (cancellations t1 + cancellations t2)%nat.
Proof. unfold cancellations. by rewrite List.filter_app, length_app. Qed.

(** [queueAction] arms a fresh timer, cancelling the one the session
    holds, and queues the action; only then is the action applied, and
    whatever the outcome of that, the timer and the queue stay as set. *)
Lemma queueAction_fields (a : Action) (w : World) :
  let w' := snd (queueAction a w) in
  let h := next_handle (host w) in
  syncActionQueue (sess w') = syncActionQueue (sess w) ++ [a]
  ∧ syncTimer (sess w') = Some h
  ∧ timers (host w')
    = match syncTimer (sess w) with
      | Some t => disarm t (timers (host w))
      | None => timers (host w)
      end ++ [(h, now (host w) + 500)]
  ∧ now (host w') = now (host w)
  ∧ session_id (sess w') = session_id (sess w)
  ∧ listeners (sess w') = listeners (sess w)
  ∧ rev (state (sess w')) = rev (state (sess w))
  ∧ ∃ tr, notifications tr
          ∧ trace (host w')
            = trace (host w)
              ++ match syncTimer (sess w) with
                 | Some t => [ClearTimeout t]
                 | None => []
                 end ++ [SetTimeout h 500] ++ tr.
Proof.
  unfold queueAction, setTimeout, clearTimeout. munfold. simpl.
  destruct (syncTimer (sess w)) as [t|] eqn:T; simpl;
    match goal with
    | |- context [applyActions [a] None ?W] =>
        destruct (applyActions_cases [a] None W)
          as [(e & m & tr & N & _ & ->)|(st' & tr & N & Hrev & ->)]
    end; simpl; repeat split; try done;
    exists tr; (split; [done|]); by rewrite <- !app_assoc.
Qed.

(** The flush sweeps the queue and calls the transport with it, whatever
    the queue holds. *)
Lemma syncQueuedActions_fields (w : World) :
  let w' := snd (syncQueuedActions w) in
  fst (syncQueuedActions w) = Normal tt
  ∧ syncActionQueue (sess w') = []
  ∧ syncTimer (sess w') = None
  ∧ timers (host w')
    = match syncTimer (sess w) with
      | Some t => disarm t (timers (host w))
      | None => timers (host w)
      end
  ∧ now (host w') = now (host w)
  ∧ state (sess w') = state (sess w)
  ∧ session_id (sess w') = session_id (sess w)
  ∧ listeners (sess w') = listeners (sess w)
  ∧ trace (host w')
    = trace (host w)
      ++ match syncTimer (sess w) with
         | Some t => [ClearTimeout t]
         | None => []
         end
      ++ map (fun l => Call_sync l INPROGRESS) (sync_listeners (listeners (sess w)))
      ++ [Transport_update (session_id (sess w)) (syncActionQueue (sess w))
            (rev (state (sess w)))].
Proof.
  unfold syncQueuedActions, sync, clearTimeout. munfold. simpl.
  destruct (syncTimer (sess w)) as [t|] eqn:T; simpl; repeat split;
    rewrite <- ?app_assoc; done.
Qed.

Lemma disarm_single h d : disarm h [(h, d)] = [].
Proof. unfold disarm. simpl. rewrite filter_cons_False; [done|]. simpl. tauto. Qed.

Lemma due_single_late h d t : d <= t → due t [(h, d)] = [h].
Proof.
  intros H. unfold due. rewrite filter_cons_True by done. reflexivity.
Qed.

Lemma due_single_early h d t : t < d → due t [(h, d)] = [].
Proof.
  intros H. unfold due. rewrite filter_cons_False; [done|]. simpl. lia.
Qed.

(** While nothing is due, time passes and nothing else happens. *)
Lemma advance_quiet (dt : Z) (w : World) :
  due (now (host w) + dt) (timers (host w)) = [] →
  advance dt w
  = (Normal tt,
     mkWorld (sess w)
       (mkHost (now (host w) + dt) (timers (host w)) (next_handle (host w))
          (trace (host w)))).
Proof. intros H. unfold advance. munfold. simpl. by rewrite H. Qed.

(** When the one armed timer is due, it fires: the host drops it and runs
    the flush. *)
Lemma advance_fires (dt : Z) (w : World) (h : positive) (d : Z) :
  timers (host w) = [(h, d)] →
  d <= now (host w) + dt →
  advance dt w
  = syncQueuedActions
      (mkWorld (sess w)
         (mkHost (now (host w) + dt) [] (next_handle (host w))
            (trace (host w)))).
Proof.
  intros Ht Hd. unfold advance. munfold. simpl.
  rewrite Ht, (due_single_late _ _ _ Hd). simpl.
  unfold fire_timer. munfold. simpl.
  rewrite bool_decide_eq_true_2 by set_solver.
  rewrite disarm_single.
  by destruct (syncQueuedActions _) as [[[]|e] w1].
Qed.

Lemma applyActions_scheduler actions r w :
  let w' := snd (applyActions actions r w) in
  syncTimer (sess w') = syncTimer (sess w)
  ∧ timers (host w') = timers (host w)
  ∧ syncActionQueue (sess w') = syncActionQueue (sess w).
Proof.
  destruct (applyActions_cases actions r w)
    as [(e & m & tr & _ & _ & ->)|(st' & tr & _ & _ & ->)]; by simpl.
Qed.

Lemma queueAction_debounce_inv a w :
  debounce_inv w → debounce_inv (snd (queueAction a w)).
Proof.
  intros Hinv.
  destruct (queueAction_fields a w) as (Hq & Ht & Hts & _).
  unfold debounce_inv in *. rewrite Ht, Hq, Hts. split.
  - destruct (syncTimer (sess w)) as [t|].
    + destruct Hinv as [[d ->] _]. rewrite disarm_single. by eexists.
    + destruct Hinv as [-> _]. by eexists.
  - by destruct (syncActionQueue (sess w)).
Qed.

Lemma advance_debounce_inv dt w :
  debounce_inv w → debounce_inv (snd (advance dt w)).
Proof.
  intros Hinv. unfold debounce_inv in Hinv.
  destruct (syncTimer (sess w)) as [t|] eqn:T.
  - destruct Hinv as [[d Hd] Hq].
    destruct (Z_le_gt_dec d (now (host w) + dt)) as [Hle|Hgt].
    + rewrite (advance_fires dt w t d Hd Hle).
      match goal with
      | |- debounce_inv (snd (syncQueuedActions ?W)) =>
          destruct (syncQueuedActions_fields W) as (_ & Hq' & Ht' & Hts' & _)
      end.
      unfold debounce_inv. rewrite Ht', Hq', Hts'. simpl. by rewrite T.
    + rewrite advance_quiet
        by (rewrite Hd; apply due_single_early; lia).
      unfold debounce_inv. simpl. rewrite T. split; [by exists d|done].
  - destruct Hinv as [Hts Hq].
    rewrite advance_quiet by (by rewrite Hts).
    unfold debounce_inv. simpl. by rewrite T.
Qed.

Lemma resume_debounce_inv r w :
  debounce_inv w → debounce_inv (snd (resume r w)).
Proof.
  intros Hinv. destruct r as [e|response]; simpl.
  - unfold handleError. munfold. simpl.
    by destruct (instanceof_DialobRequestError e).
  - munfold.
    destruct (applyActions_scheduler (response_actions response)
                (Some (response_rev response)) w) as (Ht & Hts & Hq).
    destruct (applyActions _ _ w) as [[st'|e] w1]; simpl in *;
      unfold debounce_inv in *; simpl; by rewrite Ht, Hts, Hq.
Qed.

(** In every world a session can be in, the debounce timer is armed
    exactly while the queue is not empty. *)
Lemma reachable_debounce_inv w : reachable w → debounce_inv w.
Proof.
  induction 1 as [id|w c _ IH Hadm].
  - by split.
  - destruct c; simpl;
      try (by apply queueAction_debounce_inv);
      try exact IH.
    + by apply advance_debounce_inv.
    + pose proof (resume_debounce_inv r w IH) as H. munfold.
      by destruct (resume r w) as [[x|e] w1].
Qed.

Lemma sync_calls_app t1 t2 : sync_calls (t1 ++ t2) = sync_calls t1 ++ sync_calls t2.
Proof. apply List.filter_app. Qed.

Lemma sync_calls_map (s : SyncState) (ls : list Listener) :
  sync_calls (map (fun l => Call_sync l s) ls) = map (fun l => Call_sync l s) ls.
Proof. induction ls as [|l ls IH]; [done|]. unfold sync_calls in *. simpl. by rewrite IH. Qed.

Lemma fire_timer_armed (h : positive) (w : World) :
  h ∈ (timers (host w)).*1 →
  fire_timer h w
  = syncQueuedActions
      (mkWorld (sess w)
         (mkHost (now (host w)) (disarm h (timers (host w)))
            (next_handle (host w)) (trace (host w)))).
Proof.
  intros H. unfold fire_timer. munfold. simpl.
  by rewrite bool_decide_eq_true_2.
Qed.

(** What a flush sends, in terms of the world it starts from. *)
Lemma syncQueuedActions_calls (w : World) :
  let w' := snd (syncQueuedActions w) in
  transport_calls (trace (host w'))
  = transport_calls (trace (host w))
    ++ [Transport_update (session_id (sess w)) (syncActionQueue (sess w))
          (rev (state (sess w)))]
  ∧ sync_calls (trace (host w'))
    = sync_calls (trace (host w))
      ++ map (fun l => Call_sync l INPROGRESS)
           (sync_listeners (listeners (sess w))).
Proof.
  destruct (syncQueuedActions_fields w) as (_ & _ & _ & _ & _ & _ & _ & _ & Htr).
  simpl. rewrite Htr. split.
  - rewrite !transport_calls_app.
    rewrite (transport_calls_notifications (map _ _))
      by (by apply notifications_map).
    by destruct (syncTimer (sess w)).
  - rewrite !sync_calls_app, sync_calls_map.
    destruct (syncTimer (sess w)); simpl; by rewrite app_nil_r.
Qed.

(** The flush has no guard of its own: whenever it runs, it notifies the
    sync listeners and calls the transport with the queue it swept.  It is
    private, and runs only as the callback of the timer [queueAction]
    arms. *)
Lemma flush_sends_the_queue (w : World) :
  fst (syncQueuedActions w) = Normal tt
  ∧ transport_calls (trace (host (snd (syncQueuedActions w))))
    = transport_calls (trace (host w))
      ++ [Transport_update (session_id (sess w)) (syncActionQueue (sess w))
            (rev (state (sess w)))]
  ∧ sync_calls (trace (host (snd (syncQueuedActions w))))
    = sync_calls (trace (host w))
      ++ map (fun l => Call_sync l INPROGRESS)
           (sync_listeners (listeners (sess w))).
Proof.
  destruct (syncQueuedActions_fields w) as (Hn & _).
  destruct (syncQueuedActions_calls w) as (Ht & Hs). by repeat split.
Qed.



(** C10: [queueAction], and with it [setAnswer], [complete], [next] and
    [previous], arms the timer and queues the action before it applies it.
    When the optimistic apply fails, as for [setAnswer] on an item that is
    missing or not answerable, the exception reaches the caller, the
    snapshot is unchanged, and the action is still queued: the flush of the
    armed timer sends it to the transport. *)
Theorem failed_action_stays_queued (w : World) (itemId : string)
  (answer : Value) :
  let h := next_handle (host w) in
  let queued (a : Action) (w' : World) : Prop :=
    syncActionQueue (sess w') = syncActionQueue (sess w) ++ [a]
    ∧ syncTimer (sess w') = Some h
    ∧ (h, now (host w) + 500) ∈ timers (host w') in
  (∀ a, queued a (snd (queueAction a w)))
  ∧ queued (ANSWER itemId answer) (snd (setAnswer itemId answer w))
  ∧ queued COMPLETE (snd (complete_ w))
  ∧ queued NEXT (snd (next w))
  ∧ queued PREVIOUS (snd (previous w))
  ∧ (rejected_at (state (sess w)) itemId = true →
     (∃ msg, fst (setAnswer itemId answer w) = Throw (DialobError_new msg))
     ∧ state (sess (snd (setAnswer itemId answer w))) = state (sess w)
     ∧ transport_calls
         (trace (host (snd (fire_timer h (snd (setAnswer itemId answer w))))))
       = transport_calls (trace (host w))
         ++ [Transport_update (session_id (sess w))
               (syncActionQueue (sess w) ++ [ANSWER itemId answer])
               (rev (state (sess w)))]).
Proof.
  intros h queued.
  assert (Hall : ∀ a, queued a (snd (queueAction a w))).
  { intros a.
    destruct (queueAction_fields a w) as (Hq & Ht & Hts & _).
    split; [done|]. split; [done|]. rewrite Hts. set_solver. }
  split; [exact Hall|].
  split; [apply Hall|]. split; [apply Hall|]. split; [apply Hall|].
  split; [apply Hall|].
  intros Hbad. unfold setAnswer.
  set (a := ANSWER itemId answer). set (w' := snd (queueAction a w)).
  destruct (queueAction_fields a w)
    as (Hq & Ht & Hts & Hnow & Hid & Hls & Hrev & tr & Ntr & Htr).
  fold w' in Hq, Ht, Hts, Hnow, Hid, Hls, Hrev, Htr. fold h in Ht, Hts, Htr.
  assert (Hthrow : ∃ msg, queueAction a w
                          = (Throw (DialobError_new msg), w')
                          ∧ state (sess w') = state (sess w)).
  { subst w' a. unfold queueAction, setTimeout, clearTimeout. munfold. simpl.
    destruct (syncTimer (sess w)) as [t|]; simpl;
      match goal with
      | |- context [applyActions _ None ?W] =>
          destruct (applyActions_answer_rejected W itemId answer Hbad)
            as (msg & _ & ->)
      end; by exists msg. }
  destruct Hthrow as (msg & Hrun & Hst).
  split; [exists msg; by rewrite Hrun|]. split; [done|].
  rewrite fire_timer_armed by (rewrite Hts, fmap_app; simpl; set_solver).
  match goal with
  | |- context [syncQueuedActions ?W] =>
      destruct (syncQueuedActions_calls W) as (Hcalls & _)
  end.
  simpl in Hcalls. rewrite Hcalls, Hq, Hid, Hst, Htr.
  rewrite !transport_calls_app, (transport_calls_notifications tr Ntr).
  destruct (syncTimer (sess w)); simpl; by rewrite app_nil_r.
Qed.

Lemma failed_action_stays_queued_witness :
  let w := snd (applyActions [ITEM (mkItem "q1" "group" (Some ["a1"]) None)]
                  None (new_session "s")) in
  let w' := snd (setAnswer "q1" (VStr "hello") w) in
  rejected_at (state (sess w)) "q1" = true
  ∧ (∃ msg, fst (setAnswer "q1" (VStr "hello") w) = Throw (DialobError_new msg))
  ∧ state (sess w') = state (sess w)
  ∧ syncActionQueue (sess w') = [ANSWER "q1" (VStr "hello")]
  ∧ syncActionQueue (sess (snd (previous w))) = [PREVIOUS]
  ∧ transport_calls (trace (host (snd (fire_timer 1%positive w'))))
    = [Transport_update "s" [ANSWER "q1" (VStr "hello")] 0].
Proof.
  intros w w'.
  assert (Hbad : rejected_at (state (sess w)) "q1" = true) by reflexivity.
  destruct (failed_action_stays_queued w "q1" (VStr "hello"))
    as (_ & (Hq & _) & _ & _ & (Hp & _) & Hfail).
  destruct (Hfail Hbad) as (Hthrow & Hst & Hcalls).
  split; [exact Hbad|]. split; [exact Hthrow|]. split; [exact Hst|].
  split; [exact Hq|]. split; [exact Hp|exact Hcalls].
Defined.

(** ** Debounce *)

(** An enqueue that comes before the armed timer is due. *)
Lemma enqueue_after_quiet (w : World) (c : Z * Action) :
  due (now (host w) + c.1) (timers (host w)) = [] →
  let w' := enqueue_after w c in
  let h := next_handle (host w) in
  syncActionQueue (sess w') = syncActionQueue (sess w) ++ [c.2]
  ∧ syncTimer (sess w') = Some h
  ∧ timers (host w')
    = match syncTimer (sess w) with
      | Some t => disarm t (timers (host w))
      | None => timers (host w)
      end ++ [(h, now (host w') + 500)]
  ∧ session_id (sess w') = session_id (sess w)
  ∧ rev (state (sess w')) = rev (state (sess w))
  ∧ transport_calls (trace (host w')) = transport_calls (trace (host w))
  ∧ armings (trace (host w')) = S (armings (trace (host w)))
  ∧ cancellations (trace (host w'))
    = (cancellations (trace (host w))
       + match syncTimer (sess w) with Some _ => 1 | None => 0 end)%nat.
Proof.
  intros Hdue w' h. subst w' h. unfold enqueue_after.
  rewrite (advance_quiet _ _ Hdue). simpl.
  match goal with
  | |- context [queueAction c.2 ?W] =>
      destruct (queueAction_fields c.2 W)
        as (Hq & Ht & Hts & Hnow & Hid & _ & Hrev & tr & Ntr & Htr)
  end.
  cbn [sess host now timers next_handle trace] in *.
  rewrite Hq, Ht, Hts, Hnow, Hid, Hrev, Htr.
  repeat split.
  - rewrite !transport_calls_app, (transport_calls_notifications tr Ntr).
    destruct (syncTimer (sess w)); simpl; by rewrite app_nil_r.
  - rewrite !armings_app, (armings_notifications tr Ntr).
    destruct (syncTimer (sess w)); unfold armings; simpl; lia.
  - rewrite !cancellations_app, (cancellations_notifications tr Ntr).
    destruct (syncTimer (sess w)); unfold cancellations; simpl; lia.
Qed.

(** Enqueues that follow each other within the quiet window: each one
    cancels the armed timer and arms a new one; nothing is flushed. *)
Lemma run_calls_armed (rest : list (Z * Action)) : ∀ w,
  armed_for 500 w →
  Forall (fun c => 0 <= c.1 < 500) rest →
  let w1 := run_calls rest w in
  armed_for 500 w1
  ∧ syncActionQueue (sess w1) = syncActionQueue (sess w) ++ map snd rest
  ∧ session_id (sess w1) = session_id (sess w)
  ∧ rev (state (sess w1)) = rev (state (sess w))
  ∧ transport_calls (trace (host w1)) = transport_calls (trace (host w))
  ∧ armings (trace (host w1)) = (armings (trace (host w)) + length rest)%nat
  ∧ cancellations (trace (host w1))
    = (cancellations (trace (host w)) + length rest)%nat.
Proof.
  induction rest as [|c rest IH]; intros w Harm Hgaps; simpl.
  - rewrite app_nil_r, !Nat.add_0_r. by repeat split.
  - apply Forall_cons in Hgaps as [Hc Hrest].
    destruct Harm as (h & Ht & Hts).
    assert (Hdue : due (now (host w) + c.1) (timers (host w)) = [])
      by (rewrite Hts; apply due_single_early; lia).
    destruct (enqueue_after_quiet w c Hdue)
      as (Hq & Ht' & Hts' & Hid & Hrev & Hcalls & Harms & Hcanc).
    rewrite Ht, Hts, disarm_single in Hts'. rewrite Ht in Hcanc.
    destruct (IH (enqueue_after w c)) as (A & Q & I & R & T & S1 & S2);
      [by eexists|done|].
    fold (run_calls rest (enqueue_after w c)) in *.
    rewrite Q, I, R, T, S1, S2, Hq, Hid, Hrev, Hcalls, Harms, Hcanc.
    rewrite <- app_assoc. repeat split; try done; lia.
Qed.

(** C7: enqueues that follow each other by less than the 500ms quiet
    window keep one timer armed, each one after the first cancelling the
    timer of its predecessor, and flush nothing; once 500ms pass without
    an enqueue the timer fires and one call of the transport carries all
    the actions, in order. *)
Theorem debounce_flushes_once (w : World) (c : Z * Action)
  (rest : list (Z * Action)) (quiet : Z) :
  idle w →
  0 <= c.1 →
  Forall (fun c' => 0 <= c'.1 < 500) rest →
  500 <= quiet →
  let w1 := run_calls (c :: rest) w in
  let w2 := snd (advance quiet w1) in
  armed_for 500 w1
  ∧ transport_calls (trace (host w1)) = transport_calls (trace (host w))
  ∧ armings (trace (host w1))
    = (armings (trace (host w)) + length (c :: rest))%nat
  ∧ cancellations (trace (host w1))
    = (cancellations (trace (host w)) + length rest)%nat
  ∧ transport_calls (trace (host w2))
    = transport_calls (trace (host w))
      ++ [Transport_update (session_id (sess w)) (map snd (c :: rest))
            (rev (state (sess w)))]
  ∧ idle w2.
Proof.
  intros (Ht & Hts & Hq) Hc Hgaps Hquiet w1 w2.
  assert (Hdue : due (now (host w) + c.1) (timers (host w)) = [])
    by (by rewrite Hts).
  destruct (enqueue_after_quiet w c Hdue)
    as (Hq0 & Ht0 & Hts0 & Hid0 & Hrev0 & Hcalls0 & Harms0 & Hcanc0).
  rewrite Ht, Hts in Hts0. rewrite Ht in Hcanc0. rewrite Hq in Hq0.
  simpl in Hts0, Hq0.
  destruct (run_calls_armed rest (enqueue_after w c))
    as (A & Q & I & R & T & S1 & S2); [by eexists|done|].
  change (run_calls rest (enqueue_after w c)) with w1 in *.
  rewrite Hq0 in Q. rewrite Hid0 in I. rewrite Hrev0 in R.
  rewrite Hcalls0 in T. rewrite Harms0 in S1. rewrite Hcanc0 in S2.
  split; [exact A|]. split; [exact T|]. split; [simpl; lia|].
  split; [lia|].
  destruct A as (h & Ht1 & Hts1).
  subst w2. rewrite (advance_fires quiet w1 h _ Hts1) by lia.
  match goal with
  | |- context [syncQueuedActions ?W] =>
      destruct (syncQueuedActions_calls W) as (Hcalls & _);
      destruct (syncQueuedActions_fields W) as (_ & Hq2 & Ht2 & Hts2 & _)
  end.
  simpl in *. rewrite Hcalls, I, Q, R, T. split; [done|].
  unfold idle. rewrite Ht2, Hts2, Hq2, Ht1. done.
Qed.

Lemma debounce_flushes_once_witness :
  let w := new_session "s" in
  let calls := [(0, COMPLETE); (100, NEXT); (100, PREVIOUS)] in
  idle w
  ∧ Forall (fun c' : Z * Action => 0 <= c'.1 < 500) [(100, NEXT); (100, PREVIOUS)]
  ∧ armed_for 500 (run_calls calls w)
  ∧ transport_calls (trace (host (run_calls calls w))) = []
  ∧ transport_calls (trace (host (snd (advance 500 (run_calls calls w)))))
    = [Transport_update "s" [COMPLETE; NEXT; PREVIOUS] 0]
  ∧ idle (snd (advance 500 (run_calls calls w))).
Proof.
  intros w calls.
  assert (Hidle : idle w) by (repeat split).
  assert (Hgaps : Forall (fun c' : Z * Action => 0 <= c'.1 < 500)
                    [(100, NEXT); (100, PREVIOUS)])
    by (repeat constructor; simpl; lia).
  assert (H0 : 0 <= (0, COMPLETE).1) by (simpl; lia).
  assert (Hq : 500 <= 500) by lia.
  destruct (debounce_flushes_once w (0, COMPLETE)
              [(100, NEXT); (100, PREVIOUS)] 500 Hidle H0 Hgaps Hq)
    as (A & T & _ & _ & F & Iw).
  split; [exact Hidle|]. split; [exact Hgaps|]. split; [exact A|].
  split; [exact T|]. split; [exact F|exact Iw].
Defined.


(** * Further properties of the session *)

(** ** ITEM and the index *)

Lemma add_parent_only parentId m refId c p :
  refs_contain (add_parent parentId m refId) c p = true →
  refs_contain m c p = true ∨ (c = refId ∧ p = parentId).
Proof.
  rewrite !refs_contain_true. unfold add_parent.
  intros (refs & Hc & Hp).
  destruct (decide (c = refId)) as [->|Hne].
  - rewrite lookup_alter_eq in Hc.
    destruct (m !! refId) as [old|] eqn:E.
    + rewrite E in Hc. simpl in Hc. injection Hc as <-.
      unfold set_add in Hp. case_bool_decide.
      * left. by exists old.
      * apply elem_of_app in Hp as [Hp|Hp]; [left; by exists old|].
        apply list_elem_of_singleton in Hp. by right.
    + rewrite lookup_insert_eq in Hc. simpl in Hc. injection Hc as <-.
      unfold set_add in Hp. case_bool_decide; [by apply elem_of_nil in Hp|].
      simpl in Hp. apply list_elem_of_singleton in Hp. by right.
  - rewrite lookup_alter_ne in Hc by done. left. exists refs. split; [|done].
    destruct (m !! refId); [done|]. by rewrite lookup_insert_ne in Hc.
Qed.

Lemma foldl_add_parent_only parentId refIds : ∀ m c p,
  refs_contain (foldl (add_parent parentId) m refIds) c p = true →
  refs_contain m c p = true ∨ (c ∈ refIds ∧ p = parentId).
Proof.
  induction refIds as [|r refIds IH]; intros m c p H; simpl in *; [by left|].
  apply IH in H as [H|[Hc ->]].
  - apply add_parent_only in H as [H|[-> ->]]; [by left|].
    right. split; [apply elem_of_cons; by left|done].
  - right. split; [apply elem_of_cons; by right|done].
Qed.

(** What applying one ITEM action installs, when it completes. *)
Lemma applyActions_item item r w d' w1 :
  applyAction (ITEM item) (first_draft r w) w = (Normal d', w1) →
  draft_state d'
  = set_reverseItemMap
      (set_items (stamp_rev r (state (sess w)))
         (<[item_id item := item]> (items (stamp_rev r (state (sess w))))))
      (foldl (add_parent (item_id item))
         (reverseItemMap (stamp_rev r (state (sess w))))
         (default [] (item_items item))).
Proof.
  simpl. destruct (item_items item) as [children|].
  - intros H. apply insertReverseRef_result in H. by subst d'.
  - munfold. intros [= <- _]. simpl.
    by destruct (stamp_rev r (state (sess w))).
Qed.

(** An ITEM action whose children name no inherited property stores the
    item under its id, leaves every other item alone, and adds to the
    index exactly the edges from each child the item lists to the item; no
    member of the index is taken away, nothing is thrown. *)
Theorem item_upserts_and_registers_children (item : SessionItem)
  (w : World) :
  item_id item ≠ "__proto__" →
  forallb plain_key (default [] (item_items item)) = true →
  ∃ st',
    fst (applyActions [ITEM item] None w) = Normal st'
    ∧ state (sess (snd (applyActions [ITEM item] None w))) = st'
    ∧ items st' !! item_id item = Some item
    ∧ (∀ j, j ≠ item_id item → items st' !! j = items (state (sess w)) !! j)
    ∧ (∀ c p,
         is_referenced_by st' c p = true ↔
         is_referenced_by (state (sess w)) c p = true
         ∨ (p = item_id item
            ∧ ∃ children, item_items item = Some children ∧ c ∈ children)).
Proof.
  intros _ Hplain. rewrite applyActions_unfold.
  assert (Hrun : ∃ d' w1,
            applyAction (ITEM item) (first_draft None w) w = (Normal d', w1)).
  { simpl. destruct (item_items item) as [children|]; simpl in Hplain.
    - by apply insertReverseRef_plain.
    - by eexists _, _. }
  destruct Hrun as (d' & w1 & Hrun).
  pose proof (applyActions_item item None w d' w1 Hrun) as Hd.
  cbn [for_of]. munfold. rewrite Hrun. simpl.
  exists (draft_state d'). split; [done|]. split; [done|].
  rewrite Hd. unfold is_referenced_by. simpl.
  split; [apply lookup_insert_eq|].
  split; [intros j Hj; by apply lookup_insert_ne|].
  intros c p. split.
  - intros H. apply foldl_add_parent_only in H as [H|[Hc ->]]; [by left|].
    right. split; [done|].
    destruct (item_items item) as [children|]; [by exists children|].
    by apply elem_of_nil in Hc.
  - intros [H|[-> (ch & Hch & Hc)]].
    + by apply insertReverseRef_keeps.
    + rewrite Hch. by apply insertReverseRef_adds.
Qed.

Lemma item_upserts_and_registers_children_witness :
  let q1 := mkItem "q1" "group" (Some ["a1"; "b1"]) None in
  q1.(item_id) ≠ "__proto__"
  ∧ forallb plain_key (default [] (item_items q1)) = true
  ∧ ∃ st',
      fst (applyActions [ITEM q1] None (new_session "s")) = Normal st'
      ∧ items st' !! "q1" = Some q1
      ∧ is_referenced_by st' "b1" "q1" = true.
Proof.
  intros q1.
  assert (H1 : q1.(item_id) ≠ "__proto__") by discriminate.
  assert (H2 : forallb plain_key (default [] (item_items q1)) = true)
    by reflexivity.
  split; [exact H1|]. split; [exact H2|].
  destruct (item_upserts_and_registers_children q1 (new_session "s") H1 H2)
    as (st' & Hrun & _ & Hit & _ & Hrefs).
  exists st'. split; [exact Hrun|]. split; [exact Hit|].
  apply Hrefs. right. split; [reflexivity|].
  exists ["a1"; "b1"]. split; [reflexivity|].
  apply (bool_decide_unpack _). vm_compute. exact I.
Defined.

Lemma add_parent_present parentId m refId :
  refs_contain m refId parentId = true →
  add_parent parentId m refId = m.
Proof.
  rewrite refs_contain_true. intros (refs & Hm & Hp).
  unfold add_parent. rewrite Hm.
  apply alter_id. intros x Hx. rewrite Hm in Hx. injection Hx as <-.
  unfold set_add. by rewrite bool_decide_eq_true_2.
Qed.

(** A parent that is already recorded under every id of the list is
    recorded again without a change of the draft. *)
Lemma insertReverseRef_again parentId refIds : ∀ d w,
  (∀ c, c ∈ refIds →
     refs_contain (reverseItemMap (draft_state d)) c parentId = true) →
  ∃ w', insertReverseRef d parentId refIds w = (Normal d, w').
Proof.
  unfold insertReverseRef.
  induction refIds as [|r refIds IH]; intros d w H; simpl.
  - by eexists.
  - munfold.
    assert (Hr : refs_contain (reverseItemMap (draft_state d)) r parentId
                 = true) by (apply H, elem_of_cons; by left).
    assert (Hstep : ∃ w1,
              insertReverseRef_step parentId r d w = (Normal d, w1)).
    { unfold insertReverseRef_step, get_property. munfold.
      rewrite (add_parent_present _ _ _ Hr).
      apply refs_contain_true in Hr as (refs & -> & _).
      assert (Hd : with_state d
                     (set_reverseItemMap (draft_state d)
                        (reverseItemMap (draft_state d))) = d)
        by (by destruct d as [[] ?]).
      rewrite Hd. destruct (bool_decide _); by eexists. }
    destruct Hstep as (w1 & ->). apply IH.
    intros c Hc. apply H, elem_of_cons. by right.
Qed.

Lemma applyAction_item_again item d w d1 w1 :
  applyAction (ITEM item) d w = (Normal d1, w1) →
  ∃ w2, applyAction (ITEM item) d1 w1 = (Normal d1, w2).
Proof.
  simpl. destruct (item_items item) as [children|].
  - intros H. apply insertReverseRef_result in H. subst d1. simpl.
    rewrite insert_insert_eq.
    match goal with
    | |- ∃ w2, insertReverseRef ?D _ _ _ = (Normal ?D', _) =>
        replace D with D' by (by destruct d as [[] ?])
    end.
    apply insertReverseRef_again. intros c Hc. simpl.
    by apply insertReverseRef_adds.
  - munfold. intros [= <- <-]. simpl. rewrite insert_insert_eq.
    by eexists.
Qed.

(** Upserting the same item a second time in a batch changes nothing:
    the batch with the ITEM action repeated gives the state, or the
    exception, the batch with the single action gives. *)
Theorem item_twice_is_item_once (item : SessionItem) (r : option Z)
  (w : World) :
  item_id item ≠ "__proto__" →
  fst (applyActions [ITEM item; ITEM item] r w)
  = fst (applyActions [ITEM item] r w).
Proof.
  intros _. rewrite !applyActions_unfold.
  cbn [for_of]. munfold.
  destruct (applyAction (ITEM item) (first_draft r w) w)
    as [[d1|e] w1] eqn:E; [|done].
  destruct (applyAction_item_again item _ w d1 w1 E) as (w2 & ->).
  reflexivity.
Qed.

Lemma item_twice_is_item_once_witness :
  let q1 := mkItem "q1" "group" (Some ["a1"; "constructor"]) None in
  let q2 := mkItem "q2" "group" (Some ["a1"]) None in
  q2.(item_id) ≠ "__proto__"
  ∧ fst (applyActions [ITEM q2; ITEM q2] (Some 3) (new_session "s"))
    = fst (applyActions [ITEM q2] (Some 3) (new_session "s"))
  ∧ fst (applyActions [ITEM q1] None (new_session "s"))
    = Throw TypeError_thrown.
Proof.
  intros q1 q2.
  assert (H : q2.(item_id) ≠ "__proto__") by discriminate.
  split; [exact H|]. split; [|reflexivity].
  exact (item_twice_is_item_once q2 (Some 3) (new_session "s") H).
Defined.

(** ** REMOVE_ITEMS on a batch of ids *)

Lemma remove_reference_is_Some m reference p :
  is_Some (remove_reference m reference !! p) ↔ is_Some (m !! p).
Proof.
  unfold remove_reference.
  destruct (m !! reference) as [it|] eqn:E; [|done].
  destruct (item_items it) as [children|]; [|done].
  destruct (indexOf reference children =? -1); [done|].
  destruct (decide (reference = p)) as [<-|Hne].
  - rewrite lookup_insert_eq, E. split; intros _; by eexists.
  - by rewrite lookup_insert_ne.
Qed.

Lemma foldl_remove_reference_is_Some refs : ∀ m p,
  is_Some (foldl remove_reference m refs !! p) ↔ is_Some (m !! p).
Proof.
  induction refs as [|r refs IH]; intros m p; simpl; [done|].
  by rewrite IH, remove_reference_is_Some.
Qed.

Lemma remove_item_items_is_Some st id p :
  p ≠ id →
  is_Some (items (removed st id) !! p) ↔ is_Some (items st !! p).
Proof.
  intros Hne. unfold removed. simpl.
  destruct (reverseItemMap st !! id).
  - by rewrite foldl_remove_reference_is_Some, lookup_delete_ne.
  - by rewrite lookup_delete_ne.
Qed.

Lemma remove_item_items_absent st id p :
  items st !! p = None → items (removed st id) !! p = None.
Proof.
  intros H. unfold removed. simpl.
  assert (H0 : delete id (items st) !! p = None).
  { destruct (decide (id = p)) as [->|Hne]; [apply lookup_delete_eq|].
    by rewrite lookup_delete_ne. }
  destruct (reverseItemMap st !! id); [|done].
  by apply foldl_remove_reference_absent.
Qed.

Lemma remove_item_refs_absent st id p :
  reverseItemMap st !! p = None →
  reverseItemMap (removed st id) !! p = None.
Proof.
  intros H. unfold removed. simpl.
  destruct (decide (id = p)) as [->|Hne]; [apply lookup_delete_eq|].
  by rewrite lookup_delete_ne.
Qed.

Lemma remove_item_absent_noop st id :
  items st !! id = None →
  reverseItemMap st !! id = None →
  removed st id = st.
Proof.
  intros Hi Hr. unfold removed. rewrite Hr, !delete_id by done.
  by destruct st.
Qed.

Lemma foldl_remove_item_facts (ids : list string) : ∀ st,
  (∀ id, id ∈ ids →
     items (foldl removed st ids) !! id = None
     ∧ reverseItemMap (foldl removed st ids) !! id = None)
  ∧ (∀ p, p ∉ ids →
       (is_Some (items (foldl removed st ids) !! p)
        ↔ is_Some (items st !! p))
       ∧ reverseItemMap (foldl removed st ids) !! p
         = reverseItemMap st !! p)
  ∧ valueSets (foldl removed st ids) = valueSets st
  ∧ errors (foldl removed st ids) = errors st
  ∧ locale (foldl removed st ids) = locale st
  ∧ rev (foldl removed st ids) = rev st
  ∧ complete (foldl removed st ids) = complete st.
Proof.
  induction ids as [|i ids IH]; intros st; simpl.
  - split; [intros id H; by apply elem_of_nil in H|]. by repeat split.
  - destruct (IH (removed st i)) as (Hgone & Hkept & Hrest).
    split; [|split; [|exact Hrest]].
    + intros id Hid.
      destruct (decide (id ∈ ids)) as [Hin|Hout]; [by apply Hgone|].
      apply elem_of_cons in Hid as [->|Hid]; [|done].
      destruct (remove_item_deletes st i) as [Hi Hr].
      destruct (Hkept i Hout) as [Hsome Hrefs]. split.
      * apply eq_None_not_Some. rewrite Hsome, Hi. by intros [x Hx].
      * by rewrite Hrefs.
    + intros p Hp. apply not_elem_of_cons in Hp as [Hne Hp].
      destruct (Hkept p Hp) as [Hsome Hrefs]. split.
      * by rewrite Hsome, remove_item_items_is_Some.
      * rewrite Hrefs. unfold removed. simpl. by rewrite lookup_delete_ne.
Qed.

(** What applying one REMOVE_ITEMS action installs, when no id names an
    inherited property. *)
Lemma applyActions_remove_items ids r w :
  forallb plain_key ids = true →
  applyActions [REMOVE_ITEMS ids] r w
  = (Normal (foldl removed (stamp_rev r (state (sess w))) ids),
     add_trace
       (mkWorld
          (set_state (sess w) (foldl removed (stamp_rev r (state (sess w))) ids))
          (host w))
       (map Call_update (update_listeners (listeners (sess w))))).
Proof.
  intros Hp. rewrite applyActions_unfold. cbn [for_of applyAction]. munfold.
  destruct (remove_items_plain ids (first_draft r w) w Hp) as (d' & -> & Hd).
  by rewrite Hd.
Qed.

(** After REMOVE_ITEMS(ids), for ids that name no inherited property, none
    of the ids has an item or an entry of the index; an id that is not
    removed has an item exactly if it had one and keeps its entry of the
    index; the other fields are untouched and nothing is thrown. *)
Theorem remove_items_removes_all (ids : list string) (w : World) :
  forallb plain_key ids = true →
  ∃ st',
    fst (applyActions [REMOVE_ITEMS ids] None w) = Normal st'
    ∧ state (sess (snd (applyActions [REMOVE_ITEMS ids] None w))) = st'
    ∧ (∀ id, id ∈ ids →
         items st' !! id = None ∧ reverseItemMap st' !! id = None)
    ∧ (∀ p, p ∉ ids →
         (is_Some (items st' !! p) ↔ is_Some (items (state (sess w)) !! p))
         ∧ reverseItemMap st' !! p = reverseItemMap (state (sess w)) !! p)
    ∧ valueSets st' = valueSets (state (sess w))
    ∧ errors st' = errors (state (sess w))
    ∧ locale st' = locale (state (sess w))
    ∧ rev st' = rev (state (sess w))
    ∧ complete st' = complete (state (sess w)).
Proof.
  intros Hp. rewrite (applyActions_remove_items ids None w Hp). simpl.
  eexists. split; [reflexivity|]. split; [reflexivity|].
  apply foldl_remove_item_facts.
Qed.

Lemma remove_items_removes_all_witness :
  let w := snd (applyActions
                  [ITEM (mkItem "q1" "group" (Some ["a1"; "b1"]) None);
                   ITEM (mkItem "a1" "text" None None);
                   ITEM (mkItem "b1" "text" None None)]
                  None (new_session "s")) in
  forallb plain_key ["a1"; "zz"] = true
  ∧ ∃ st',
      fst (applyActions [REMOVE_ITEMS ["a1"; "zz"]] None w) = Normal st'
      ∧ items st' !! "a1" = None
      ∧ reverseItemMap st' !! "a1" = None
      ∧ is_Some (items st' !! "b1").
Proof.
  intros w.
  assert (H : forallb plain_key ["a1"; "zz"] = true) by reflexivity.
  split; [exact H|].
  destruct (remove_items_removes_all ["a1"; "zz"] w H)
    as (st' & Hrun & _ & Hgone & Hkept & _).
  exists st'. split; [exact Hrun|].
  destruct (Hgone "a1") as [Hi Hr];
    [apply (bool_decide_unpack _); vm_compute; exact I|].
  split; [exact Hi|]. split; [exact Hr|].
  apply Hkept.
  - apply (bool_decide_unpack _). vm_compute. exact I.
  - by eexists.
Defined.

Lemma foldl_remove_item_absent_noop ids : ∀ st,
  (∀ id, id ∈ ids →
     items st !! id = None ∧ reverseItemMap st !! id = None) →
  foldl removed st ids = st.
Proof.
  induction ids as [|i ids IH]; intros st H; simpl; [done|].
  destruct (H i) as [Hi Hr]; [apply elem_of_cons; by left|].
  rewrite remove_item_absent_noop by done.
  apply IH. intros id Hid. apply H. apply elem_of_cons. by right.
Qed.

(** REMOVE_ITEMS of ids that name no inherited property and have neither
    an item nor an entry of the index installs the snapshot as it was. *)
Theorem remove_items_absent_is_noop (ids : list string) (w : World) :
  forallb plain_key ids = true →
  (∀ id, id ∈ ids →
     items (state (sess w)) !! id = None
     ∧ reverseItemMap (state (sess w)) !! id = None) →
  applyActions [REMOVE_ITEMS ids] None w
  = (Normal (state (sess w)),
     add_trace w (map Call_update (update_listeners (listeners (sess w))))).
Proof.
  intros Hp H. rewrite (applyActions_remove_items ids None w Hp). simpl.
  rewrite foldl_remove_item_absent_noop by done.
  by destruct w as [[sid st q t ls] h].
Qed.

Lemma remove_items_absent_is_noop_witness :
  let w := snd (applyActions
                  [ITEM (mkItem "q1" "group" (Some ["a1"]) None)]
                  None (new_session "s")) in
  forallb plain_key ["zz"; "q2"] = true
  ∧ (∀ id, id ∈ ["zz"; "q2"] →
       items (state (sess w)) !! id = None
       ∧ reverseItemMap (state (sess w)) !! id = None)
  ∧ applyActions [REMOVE_ITEMS ["zz"; "q2"]] None w
    = (Normal (state (sess w)), w).
Proof.
  intros w.
  assert (Hp : forallb plain_key ["zz"; "q2"] = true) by reflexivity.
  assert (H : ∀ id, id ∈ ["zz"; "q2"] →
                items (state (sess w)) !! id = None
                ∧ reverseItemMap (state (sess w)) !! id = None).
  { intros id Hid. apply elem_of_cons in Hid as [->|Hid].
    - split; reflexivity.
    - apply list_elem_of_singleton in Hid as ->. split; reflexivity. }
  split; [exact Hp|]. split; [exact H|].
  exact (remove_items_absent_is_noop ["zz"; "q2"] w Hp H).
Defined.

(** Removing the same ids a second time in a batch changes nothing, for
    ids that name no inherited property. *)
Theorem remove_items_twice_is_once (ids : list string) (r : option Z)
  (w : World) :
  forallb plain_key ids = true →
  fst (applyActions [REMOVE_ITEMS ids; REMOVE_ITEMS ids] r w)
  = fst (applyActions [REMOVE_ITEMS ids] r w).
Proof.
  intros Hp. rewrite (applyActions_remove_items ids r w Hp).
  rewrite applyActions_unfold. cbn [for_of applyAction]. munfold.
  destruct (remove_items_plain ids (first_draft r w) w Hp) as (d1 & -> & Hd1).
  destruct (remove_items_plain ids d1 w Hp) as (d2 & -> & Hd2).
  simpl. rewrite Hd2, Hd1. f_equal.
  apply foldl_remove_item_absent_noop, foldl_remove_item_facts.
Qed.

Lemma remove_items_twice_is_once_witness :
  let w := snd (applyActions
                  [ITEM (mkItem "q1" "group" (Some ["a1"]) None);
                   ITEM (mkItem "a1" "text" None None)]
                  None (new_session "s")) in
  forallb plain_key ["a1"; "q1"] = true
  ∧ fst (applyActions [REMOVE_ITEMS ["a1"; "q1"]; REMOVE_ITEMS ["a1"; "q1"]]
           None w)
    = fst (applyActions [REMOVE_ITEMS ["a1"; "q1"]] None w)
  ∧ fst (applyActions [REMOVE_ITEMS ["constructor"]] None w)
    = Throw TypeError_thrown.
Proof.
  intros w.
  assert (Hp : forallb plain_key ["a1"; "q1"] = true) by reflexivity.
  split; [exact Hp|]. split; [|reflexivity].
  exact (remove_items_twice_is_once ["a1"; "q1"] None w Hp).
Defined.


(** ** Batches *)

(** The draft an action yields does not depend on the world. *)
Lemma insertReverseRef_step_result_indep parentId refId d w1 w2 :
  fst (insertReverseRef_step parentId refId d w1)
  = fst (insertReverseRef_step parentId refId d w2).
Proof.
  unfold insertReverseRef_step.
  destruct (get_property _ refId); [destruct (bool_decide _)| |];
    reflexivity.
Qed.

Lemma insertReverseRef_result_indep parentId refIds : ∀ d w1 w2,
  fst (insertReverseRef d parentId refIds w1)
  = fst (insertReverseRef d parentId refIds w2).
Proof.
  unfold insertReverseRef.
  induction refIds as [|r refIds IH]; intros d w1 w2; simpl; [done|].
  munfold. pose proof (insertReverseRef_step_result_indep parentId r d w1 w2)
    as Hs.
  destruct (insertReverseRef_step parentId r d w1) as [[s1|e1] v1],
           (insertReverseRef_step parentId r d w2) as [[s2|e2] v2];
    simpl in Hs; try discriminate; injection Hs as <-; [apply IH|done].
Qed.

Lemma remove_items_result_indep ids : ∀ d w1 w2,
  fst (for_of ids remove_item d w1) = fst (for_of ids remove_item d w2).
Proof.
  induction ids as [|i ids IH]; intros d w1 w2; simpl; [done|].
  munfold. unfold remove_item at 1 3.
  destruct (get_property _ i); simpl; by rewrite ?(IH _ w1 w2).
Qed.

Lemma applyAction_result_indep a d w1 w2 :
  fst (applyAction a d w1) = fst (applyAction a d w2).
Proof.
  destruct a; simpl; try reflexivity.
  - destruct (get_property _ id) as [it| |]; [destruct (not_answerable _)| |];
      reflexivity.
  - destruct (item_items item); [apply insertReverseRef_result_indep|done].
  - apply remove_items_result_indep.
Qed.

Lemma for_of_result_indep actions : ∀ d w1 w2,
  fst (for_of actions applyAction d w1)
  = fst (for_of actions applyAction d w2).
Proof.
  induction actions as [|a actions IH]; intros d w1 w2; simpl; [done|].
  munfold. pose proof (applyAction_result_indep a d w1 w2) as Ha.
  destruct (applyAction a d w1) as [[s1|e1] v1],
           (applyAction a d w2) as [[s2|e2] v2]; simpl in Ha;
    try discriminate; injection Ha as <-; [apply IH|done].
Qed.

Lemma for_of_app (pre post : list Action) : ∀ d w,
  for_of (pre ++ post) applyAction d w
  = match for_of pre applyAction d w with
    | (Normal d1, w1) => for_of post applyAction d1 w1
    | (Throw e, w1) => (Throw e, w1)
    end.
Proof.
  induction pre as [|a pre IH]; intros d w; simpl; [done|].
  munfold. destruct (applyAction a d w) as [[d1|e] w1]; [apply IH|done].
Qed.

Lemma applyActions_result actions r w :
  fst (applyActions actions r w)
  = match fst (for_of actions applyAction (first_draft r w) w) with
    | Normal d' => Normal (draft_state d')
    | Throw e => Throw e
    end.
Proof.
  rewrite applyActions_unfold.
  by destruct (for_of actions applyAction _ w) as [[d'|e] w1].
Qed.

(** A batch that completes installs the reduced state; on the way the
    error listeners are called once for each action of unknown type, in the
    order of the batch, and at the end each update listener is called once,
    whatever the length of the batch.  Nothing else changes. *)
Theorem batch_installs_and_notifies_once (actions : list Action)
  (r : option Z) (w w' : World) (st' : SessionState) :
  applyActions actions r w = (Normal st', w') →
  w' = add_trace (mkWorld (set_state (sess w) st') (host w))
         (flat_map (reported (listeners (sess w))) actions
          ++ map Call_update (update_listeners (listeners (sess w)))).
Proof.
  rewrite applyActions_unfold. intros H.
  destruct (for_of_applyAction_world actions (first_draft r w) w)
    as (m & _ & Hf).
  destruct (for_of actions applyAction _ w) as [[d1|e] w1]; [|done].
  subst w1. injection H as <- <-.
  unfold add_trace, with_installed_refs. simpl. by rewrite app_assoc.
Qed.

Lemma batch_installs_and_notifies_once_witness :
  let w := snd (on Ev_update 2%nat (snd (on Ev_error 7%nat (new_session "s")))) in
  let r := applyActions [OTHER "A"; COMPLETE; OTHER "B"] None w in
  trace (host (snd r))
  = [Call_error 7%nat CLIENT (DialobError_new "Unexpected action type!");
     Call_error 7%nat CLIENT (DialobError_new "Unexpected action type!");
     Call_update 2%nat].
Proof.
  intros w r.
  rewrite (batch_installs_and_notifies_once
             [OTHER "A"; COMPLETE; OTHER "B"] None w (snd r)
             (set_complete initial_state true) eq_refl).
  reflexivity.
Defined.



Lemma foldl_removed_errors_complete ids : ∀ st,
  errors (foldl removed st ids) = errors st
  ∧ complete (foldl removed st ids) = complete st.
Proof.
  induction ids as [|i ids IH]; intros st; simpl; [done|].
  destruct (IH (removed st i)) as [-> ->]. done.
Qed.

Lemma applyAction_errors_complete a d w d' w' :
  is_reset a = false →
  applyAction a d w = (Normal d', w') →
  errors (draft_state d') = errors (draft_state d) ++ error_payloads [a]
  ∧ complete (draft_state d')
    = complete (draft_state d) || is_complete_action a.
Proof.
  intros Hr.
  destruct a; simpl; munfold; simpl; try discriminate Hr;
    try (intros [= <- _]; simpl; rewrite ?app_nil_r, ?orb_false_r, ?orb_true_r;
         by split).
  - destruct (get_property _ id) as [it| |];
      [destruct (not_answerable _)| |]; try discriminate;
      intros [= <- _]; simpl; by rewrite app_nil_r, orb_false_r.
  - destruct (item_items item).
    + intros H. apply insertReverseRef_result in H. subst d'. simpl.
      by rewrite app_nil_r, orb_false_r.
    + intros [= <- _]. simpl. by rewrite app_nil_r, orb_false_r.
  - intros H. apply remove_items_result in H. rewrite H.
    rewrite app_nil_r, orb_false_r. apply foldl_removed_errors_complete.
Qed.

Lemma for_of_errors_complete actions : ∀ d w d' w',
  existsb is_reset actions = false →
  for_of actions applyAction d w = (Normal d', w') →
  errors (draft_state d') = errors (draft_state d) ++ error_payloads actions
  ∧ complete (draft_state d')
    = complete (draft_state d) || existsb is_complete_action actions.
Proof.
  induction actions as [|a actions IH]; intros d w d' w' Hr; simpl.
  - munfold. intros [= <- _]. by rewrite app_nil_r, orb_false_r.
  - simpl in Hr. apply orb_false_iff in Hr as [Ha Hr]. munfold.
    destruct (applyAction a d w) as [[d1|e] w1] eqn:E; [|done].
    intros H. apply IH in H as [He Hc]; [|done].
    apply applyAction_errors_complete in E as [He1 Hc1]; [|done].
    rewrite He, He1, Hc, Hc1. unfold error_payloads. simpl.
    rewrite app_nil_r. split; [by rewrite app_assoc|].
    by rewrite orb_assoc.
Qed.

Lemma stamp_rev_fields r st :
  items (stamp_rev r st) = items st
  ∧ reverseItemMap (stamp_rev r st) = reverseItemMap st
  ∧ valueSets (stamp_rev r st) = valueSets st
  ∧ errors (stamp_rev r st) = errors st
  ∧ locale (stamp_rev r st) = locale st
  ∧ complete (stamp_rev r st) = complete st.
Proof. destruct r as [n|]; simpl; [destruct (n =? 0)|]; by repeat split. Qed.

(** In a batch without RESET the errors of the ERROR actions are appended
    to [errors], in the order of the batch, and nothing else touches the
    list: no error is dropped, reordered or thrown. *)
Theorem errors_are_appended_in_order (actions : list Action) (r : option Z)
  (w w' : World) (st' : SessionState) :
  existsb is_reset actions = false →
  applyActions actions r w = (Normal st', w') →
  errors st' = errors (state (sess w)) ++ error_payloads actions.
Proof.
  intros Hr H. apply applyActions_normal in H as (d' & w1 & H & ->).
  apply for_of_errors_complete in H as [He _]; [|done].
  rewrite He. simpl.
  by destruct (stamp_rev_fields r (state (sess w))) as (_&_&_&->&_).
Qed.

Lemma errors_are_appended_in_order_witness :
  let e1 := mkError "a1" "REQUIRED" "Answer is required" in
  let e2 := mkError "a2" "RANGE" "Out of range" in
  let r := applyActions [ERROR e1; NEXT; ERROR e2] None (new_session "s") in
  existsb is_reset [ERROR e1; NEXT; ERROR e2] = false
  ∧ (∀ st' w', r = (Normal st', w') → errors st' = [e1; e2]).
Proof.
  intros e1 e2 r.
  assert (H : existsb is_reset [ERROR e1; NEXT; ERROR e2] = false)
    by reflexivity.
  split; [exact H|]. intros st' w' Hrun.
  exact (errors_are_appended_in_order [ERROR e1; NEXT; ERROR e2] None
           (new_session "s") w' st' H Hrun).
Defined.

(** COMPLETE sets [complete] and only RESET clears it: after a batch
    without RESET the session is complete exactly if it was before or the
    batch holds a COMPLETE. *)
Theorem complete_is_set_and_kept (actions : list Action) (r : option Z)
  (w w' : World) (st' : SessionState) :
  existsb is_reset actions = false →
  applyActions actions r w = (Normal st', w') →
  complete st'
  = complete (state (sess w)) || existsb is_complete_action actions.
Proof.
  intros Hr H. apply applyActions_normal in H as (d' & w1 & H & ->).
  apply for_of_errors_complete in H as [_ Hc]; [|done].
  rewrite Hc. simpl.
  by destruct (stamp_rev_fields r (state (sess w))) as (_&_&_&_&_&->).
Qed.

Lemma complete_is_set_and_kept_witness :
  let w := snd (applyActions [COMPLETE] None (new_session "s")) in
  let actions := [LOCALE "fi"; REMOVE_ITEMS ["q1"]; OTHER "SKIP"] in
  existsb is_reset actions = false
  ∧ (∀ st' w', applyActions actions (Some 3) w = (Normal st', w') →
               complete st' = true).
Proof.
  intros w actions.
  assert (H : existsb is_reset actions = false) by reflexivity.
  split; [exact H|]. intros st' w' Hrun.
  exact (complete_is_set_and_kept actions (Some 3) w w' st' H Hrun).
Defined.

(** RESET forgets what the batch did before it: when the actions before
    a RESET apply without an exception, the batch gives the state the batch
    from the RESET on gives. *)
Theorem reset_forgets_the_actions_before (pre post : list Action)
  (r : option Z) (w : World) :
  (∃ st1 w1, applyActions pre r w = (Normal st1, w1)) →
  fst (applyActions (pre ++ RESET :: post) r w)
  = fst (applyActions (RESET :: post) r w).
Proof.
  intros (st1 & w1 & H). apply applyActions_normal in H as (d1 & w2 & H & _).
  rewrite !applyActions_result, for_of_app, H. simpl. munfold.
  apply for_of_applyAction_rev in H. rewrite H. simpl.
  by rewrite (for_of_result_indep post _ w2 w).
Qed.

Lemma reset_forgets_the_actions_before_witness :
  let pre := [ITEM (mkItem "q1" "group" (Some ["a1"]) None); COMPLETE;
              LOCALE "fi"] in
  let post := [ITEM (mkItem "a1" "text" None None)] in
  (∃ st1 w1, applyActions pre (Some 4) (new_session "s") = (Normal st1, w1))
  ∧ fst (applyActions (pre ++ RESET :: post) (Some 4) (new_session "s"))
    = fst (applyActions (RESET :: post) (Some 4) (new_session "s")).
Proof.
  intros pre post.
  assert (H : ∃ st1 w1,
            applyActions pre (Some 4) (new_session "s") = (Normal st1, w1))
    by (eexists _, _; reflexivity).
  split; [exact H|].
  exact (reset_forgets_the_actions_before pre post (Some 4)
           (new_session "s") H).
Defined.

Lemma for_of_navigation actions : ∀ (d : Draft) w,
  forallb is_navigation actions = true →
  for_of actions applyAction d w = (Normal d, w).
Proof.
  induction actions as [|a actions IH]; intros d w H; simpl; [done|].
  simpl in H. apply andb_true_iff in H as [Ha H].
  destruct a; try discriminate Ha; simpl; munfold; by apply IH.
Qed.

(** NEXT and PREVIOUS are accepted and have no effect on the snapshot: a
    batch of them installs the snapshot as it was and calls each update
    listener once. *)
Theorem navigation_leaves_snapshot (actions : list Action) (w : World) :
  forallb is_navigation actions = true →
  applyActions actions None w
  = (Normal (state (sess w)),
     add_trace w (map Call_update (update_listeners (listeners (sess w))))).
Proof.
  intros H. rewrite applyActions_unfold, for_of_navigation by done.
  simpl. by destruct w as [[sid st q t ls] hst].
Qed.

Lemma navigation_leaves_snapshot_witness :
  let w := snd (on Ev_update 2%nat
                  (snd (applyActions [ITEM (mkItem "a1" "text" None None)]
                          None (new_session "s")))) in
  forallb is_navigation [NEXT; PREVIOUS; NEXT] = true
  ∧ applyActions [NEXT; PREVIOUS; NEXT] None w
    = (Normal (state (sess w)), add_trace w [Call_update 2%nat]).
Proof.
  intros w.
  assert (H : forallb is_navigation [NEXT; PREVIOUS; NEXT] = true)
    by reflexivity.
  split; [exact H|].
  exact (navigation_leaves_snapshot [NEXT; PREVIOUS; NEXT] w H).
Defined.

(** ** Optimistic application *)

Lemma fire_timer_state (h : positive) (w : World) :
  state (sess (snd (fire_timer h w))) = state (sess w).
Proof.
  unfold fire_timer. munfold. simpl. case_bool_decide; [|done].
  match goal with
  | |- context [syncQueuedActions ?W] =>
      destruct (syncQueuedActions_fields W) as (Hn & _ & _ & _ & _ & Hs & _);
      destruct (syncQueuedActions W) as [[[]|e] w1]
  end; simpl in *; done.
Qed.

Lemma for_of_fire_timer_state (hs : list positive) : ∀ w,
  state (sess (snd (for_of hs (fun handle _ => fire_timer handle) tt w)))
  = state (sess w).
Proof.
  induction hs as [|h hs IH]; intros w; simpl; [done|].
  munfold. pose proof (fire_timer_state h w) as Hf.
  destruct (fire_timer h w) as [[[]|e] w1]; simpl in Hf; [|done].
  by rewrite IH.
Qed.

Lemma advance_state (dt : Z) (w : World) :
  state (sess (snd (advance dt w))) = state (sess w).
Proof.
  unfold advance. munfold. simpl.
  by rewrite for_of_fire_timer_state.
Qed.

(** Nothing but the settling of a transport call changes [rev]: the
    convenience methods with their optimistic apply, the subscriptions, a
    pull that is under way and a flush all leave it alone. *)
Theorem only_responses_change_rev (c : Call) (w : World) :
  is_resume c = false →
  rev (state (sess (snd (perform c w)))) = rev (state (sess w)).
Proof.
  intros Hc. destruct c; try discriminate Hc; simpl; try reflexivity;
    try (unfold setAnswer, complete_, next, previous;
         match goal with
         | |- context [queueAction ?a w] =>
             by destruct (queueAction_fields a w) as (_&_&_&_&_&_&Hrev&_)
         end).
  by rewrite advance_state.
Qed.

Lemma only_responses_change_rev_witness :
  let w := snd (resume (inr (mkResponse
                               [ITEM (mkItem "a1" "text" None None)] 12))
                  (new_session "s")) in
  is_resume (Do_setAnswer "a1" (VStr "hello")) = false
  ∧ rev (state (sess w)) = 12
  ∧ rev (state (sess (snd (perform (Do_setAnswer "a1" (VStr "hello")) w))))
    = rev (state (sess w)).
Proof.
  intros w.
  assert (H : is_resume (Do_setAnswer "a1" (VStr "hello")) = false)
    by reflexivity.
  split; [exact H|]. split; [reflexivity|].
  exact (only_responses_change_rev (Do_setAnswer "a1" (VStr "hello")) w H).
Defined.

(** [setAnswer] on an answerable item never throws; the answer is readable
    through [getItem] as soon as the call returns, before any flush, and the
    ANSWER action is queued for the transport. *)
Theorem setAnswer_is_visible_at_once (w : World) (itemId : string)
  (answer : Value) :
  answerable_at (state (sess w)) itemId = true →
  fst (setAnswer itemId answer w) = Normal tt
  ∧ item_value <$> getItem itemId (sess (snd (setAnswer itemId answer w)))
    = Some (Some answer)
  ∧ (∀ j, j ≠ itemId →
       getItem j (sess (snd (setAnswer itemId answer w)))
       = getItem j (sess w))
  ∧ syncActionQueue (sess (snd (setAnswer itemId answer w)))
    = syncActionQueue (sess w) ++ [ANSWER itemId answer]
  ∧ transport_calls (trace (host (snd (setAnswer itemId answer w))))
    = transport_calls (trace (host w)).
Proof.
  intros Hok.
  destruct (queueAction_fields (ANSWER itemId answer) w)
    as (Hq & _ & _ & _ & _ & _ & _ & tr & Ntr & Htr).
  assert (Hrun : ∃ it w',
            items (state (sess w)) !! itemId = Some it
            ∧ setAnswer itemId answer w = (Normal tt, w')
            ∧ state (sess w') = answered (state (sess w)) itemId it answer).
  { unfold setAnswer, queueAction, setTimeout, clearTimeout. munfold. simpl.
    destruct (syncTimer (sess w)) as [t|]; simpl;
      match goal with
      | |- context [applyActions _ None ?W] =>
          destruct (applyActions_answer_accepted W itemId answer Hok)
            as (it & Hit & ->)
      end; exists it; eexists; (split; [exact Hit|]); split; reflexivity. }
  destruct Hrun as (it & w' & Hit & Hrun & Hst).
  assert (Hcalls : transport_calls
                     (trace (host (snd (queueAction (ANSWER itemId answer) w))))
                   = transport_calls (trace (host w))).
  { rewrite Htr, !transport_calls_app, (transport_calls_notifications tr Ntr).
    destruct (syncTimer (sess w)); simpl; by rewrite app_nil_r. }
  clear Htr. unfold setAnswer in *. rewrite Hrun in *.
  cbn [fst snd] in *.
  split; [done|]. unfold getItem. rewrite Hst. unfold answered. simpl.
  split; [by rewrite lookup_insert_eq|].
  split; [intros j Hj; by rewrite lookup_insert_ne|].
  split; done.
Qed.

Lemma setAnswer_is_visible_at_once_witness :
  let w := snd (applyActions [ITEM (mkItem "a1" "text" None (Some VNull))]
                  None (new_session "s")) in
  answerable_at (state (sess w)) "a1" = true
  ∧ fst (setAnswer "a1" (VStr "hello") w) = Normal tt
  ∧ item_value <$> getItem "a1" (sess (snd (setAnswer "a1" (VStr "hello") w)))
    = Some (Some (VStr "hello")).
Proof.
  intros w.
  assert (H : answerable_at (state (sess w)) "a1" = true) by reflexivity.
  destruct (setAnswer_is_visible_at_once w "a1" (VStr "hello") H)
    as (Hn & Hv & _).
  split; [exact H|]. split; [exact Hn|exact Hv].
Defined.

(** [complete], [next] and [previous] never throw.  [complete] makes
    [isComplete] true at once; [next] and [previous] leave the snapshot as
    it is; each queues its action and calls no transport. *)
Theorem complete_next_previous_never_throw (w : World) :
  (fst (complete_ w) = Normal tt
   ∧ isComplete (sess (snd (complete_ w))) = true
   ∧ syncActionQueue (sess (snd (complete_ w)))
     = syncActionQueue (sess w) ++ [COMPLETE])
  ∧ (fst (next w) = Normal tt
     ∧ state (sess (snd (next w))) = state (sess w)
     ∧ syncActionQueue (sess (snd (next w)))
       = syncActionQueue (sess w) ++ [NEXT])
  ∧ (fst (previous w) = Normal tt
     ∧ state (sess (snd (previous w))) = state (sess w)
     ∧ syncActionQueue (sess (snd (previous w)))
       = syncActionQueue (sess w) ++ [PREVIOUS]).
Proof.
  unfold complete_, next, previous, queueAction, applyActions, produce,
    setTimeout, clearTimeout. munfold. simpl.
  destruct (syncTimer (sess w)); simpl; repeat split; by destruct (state (sess w)).
Qed.


(** ** Settling a transport call *)

Lemma error_calls_app t1 t2 :
  error_calls (t1 ++ t2) = error_calls t1 ++ error_calls t2.
Proof. apply List.filter_app. Qed.

Lemma sync_calls_notifications_other tr :
  Forall (fun e => match e with Call_sync _ _ => False | _ => True end) tr →
  sync_calls tr = [].
Proof.
  induction 1 as [|e tr He _ IH]; [reflexivity|].
  unfold sync_calls in *. simpl. rewrite IH. by destruct e.
Qed.


(** When the transport fails, the failure is handed to every error
    listener, classified SYNC if it is a request error and CLIENT
    otherwise, and is thrown again to the caller; the session is untouched
    and the sync listeners get no DONE. *)
Theorem transport_failure_is_reported_and_rethrown (e : DialobError)
  (w : World) :
  resume (inl e) w
  = (Throw e,
     add_trace w
       (map (fun l => Call_error l
                        (if instanceof_DialobRequestError e
                         then SYNC else CLIENT) e)
            (error_listeners (listeners (sess w)))))
  ∧ sync_calls (trace (host (snd (resume (inl e) w))))
    = sync_calls (trace (host w)).
Proof.
  assert (H : resume (inl e) w
              = (Throw e,
                 add_trace w
                   (map (fun l => Call_error l
                                    (if instanceof_DialobRequestError e
                                     then SYNC else CLIENT) e)
                        (error_listeners (listeners (sess w)))))).
  { simpl. munfold. by rewrite handleError_run. }
  split; [exact H|]. rewrite H. simpl. rewrite sync_calls_app.
  rewrite (sync_calls_notifications_other (map _ _)).
  - apply app_nil_r.
  - apply Forall_map, Forall_forall. by intros l _.
Qed.

(** When the transport answers and the actions of the response apply, the
    reduced state is installed, stamped with the revision of the response
    unless that is 0, the update listeners are called and after them every
    sync listener is called with DONE; nothing is thrown. *)
Theorem response_is_applied_then_done (response : DialobResponse)
  (w w1 : World) (st' : SessionState) :
  applyActions (response_actions response) (Some (response_rev response)) w
  = (Normal st', w1) →
  resume (inr response) w
  = (Normal tt,
     add_trace w1
       (map (fun l => Call_sync l DONE) (sync_listeners (listeners (sess w)))))
  ∧ state (sess (snd (resume (inr response) w))) = st'
  ∧ (response_rev response ≠ 0 → rev st' = response_rev response).
Proof.
  intros H.
  destruct (applyActions_cases (response_actions response)
              (Some (response_rev response)) w)
    as [(e & m & tr & _ & _ & H1)|(st1 & tr & _ & Hrev & H1)];
    rewrite H1 in H; [discriminate|].
  injection H as <- <-.
  assert (Hrun : resume (inr response) w
                 = (Normal tt,
                    add_trace
                      (add_trace (mkWorld (set_state (sess w) st1) (host w)) tr)
                      (map (fun l => Call_sync l DONE)
                           (sync_listeners (listeners (sess w)))))).
  { simpl. munfold. by rewrite H1. }
  split; [exact Hrun|]. rewrite Hrun. split; [reflexivity|].
  intros Hnz. rewrite Hrev. simpl.
  by destruct (Z.eqb_spec (response_rev response) 0).
Qed.

Lemma response_is_applied_then_done_witness :
  let w := snd (on Ev_sync 4%nat (snd (on Ev_update 2%nat (new_session "s")))) in
  let response := mkResponse [RESET; ITEM (mkItem "a1" "text" None None)] 3 in
  (∃ st' w1, applyActions (response_actions response)
               (Some (response_rev response)) w = (Normal st', w1))
  ∧ trace (host (snd (resume (inr response) w)))
    = [Call_update 2%nat; Call_sync 4%nat DONE]
  ∧ rev (state (sess (snd (resume (inr response) w)))) = 3.
Proof.
  intros w response.
  pose (r := applyActions (response_actions response)
               (Some (response_rev response)) w).
  assert (H : applyActions (response_actions response)
                (Some (response_rev response)) w = (Normal (state (sess (snd r))), snd r))
    by reflexivity.
  destruct (response_is_applied_then_done response w (snd r)
              (state (sess (snd r))) H) as (Hrun & Hst & Hrev).
  split; [by eexists _, _|]. split.
  - rewrite Hrun. reflexivity.
  - rewrite Hst. apply Hrev. simpl. lia.
Defined.



(** ** Subscribing and unsubscribing *)

Lemma findIndex_from_first x l1 l2 : ∀ i,
  x ∉ l1 →
  findIndex_from x (l1 ++ x :: l2) i = i + Z.of_nat (length l1).
Proof.
  induction l1 as [|y l1 IH]; intros i Hx; simpl.
  - rewrite Nat.eqb_refl. lia.
  - apply not_elem_of_cons in Hx as [Hne Hx].
    destruct (Nat.eqb_spec y x); [congruence|]. rewrite IH by done. lia.
Qed.

Lemma splice_one_at {A} (l1 l2 : list A) (x : A) :
  splice (Z.of_nat (length l1)) 1 (l1 ++ x :: l2) = l1 ++ l2.
Proof.
  unfold splice. rewrite length_app. simpl.
  destruct (Z.ltb_spec (Z.of_nat (length l1)) 0) as [Hneg|_]; [lia|].
  replace (Z.min (Z.of_nat (length l1)) (Z.of_nat (length l1 + S (length l2))))
    with (Z.of_nat (length l1)) by lia.
  replace (Z.min (Z.max 1 0)
             (Z.of_nat (length l1 + S (length l2)) - Z.of_nat (length l1)))
    with 1 by lia.
  rewrite Nat2Z.id.
  replace (Z.to_nat (Z.of_nat (length l1) + 1)) with (length l1 + 1)%nat by lia.
  rewrite take_app_length. f_equal.
  rewrite <- drop_drop, drop_app_length. reflexivity.
Qed.

(** Removing a subscribed listener takes out its first subscription and
    nothing else: the listeners before and after it keep their order, a
    second subscription of the same listener stays. *)
Theorem removeListener_removes_first_subscription (w : World) (ty : Event)
  (listener : Listener) (before after : list Listener) :
  listeners_of ty (listeners (sess w)) = before ++ listener :: after →
  listener ∉ before →
  listeners_of ty (listeners (sess (snd (removeListener ty listener w))))
  = before ++ after
  ∧ (∀ ty', ty' ≠ ty →
       listeners_of ty' (listeners (sess (snd (removeListener ty listener w))))
       = listeners_of ty' (listeners (sess w))).
Proof.
  intros Hl Hb. simpl. unfold findIndex.
  rewrite Hl, (findIndex_from_first _ _ _ 0 Hb), Z.add_0_l.
  rewrite splice_one_at. split.
  - by destruct ty.
  - intros ty' Hne. by destruct ty, ty'.
Qed.

Lemma removeListener_removes_first_subscription_witness :
  let w := snd (on Ev_sync 1%nat (snd (on Ev_sync 2%nat
                 (snd (on Ev_sync 1%nat (snd (on Ev_sync 3%nat
                    (new_session "s")))))))) in
  listeners_of Ev_sync (listeners (sess w)) = [3%nat] ++ 1%nat :: [2%nat; 1%nat]
  ∧ (1%nat ∉ [3%nat])
  ∧ listeners_of Ev_sync (listeners (sess (snd (removeListener Ev_sync 1%nat w))))
    = [3%nat; 2%nat; 1%nat].
Proof.
  intros w.
  assert (H1 : listeners_of Ev_sync (listeners (sess w))
               = [3%nat] ++ 1%nat :: [2%nat; 1%nat]) by reflexivity.
  assert (H2 : 1%nat ∉ [3%nat])
    by (apply (bool_decide_unpack _); vm_compute; exact I).
  split; [exact H1|]. split; [exact H2|].
  exact (proj1 (removeListener_removes_first_subscription w Ev_sync 1%nat
                  [3%nat] [2%nat; 1%nat] H1 H2)).
Defined.

(** A listener that was not subscribed, subscribed with [on] and removed
    again, leaves the subscriptions exactly as they were. *)
Theorem on_then_removeListener (w : World) (ty : Event) (listener : Listener) :
  listener ∉ listeners_of ty (listeners (sess w)) →
  listeners (sess (snd (removeListener ty listener (snd (on ty listener w)))))
  = listeners (sess w).
Proof.
  intros Hb. simpl. unfold findIndex.
  assert (Hl : listeners_of ty
                 (with_listeners ty
                    (listeners_of ty (listeners (sess w)) ++ [listener])
                    (listeners (sess w)))
               = listeners_of ty (listeners (sess w)) ++ [listener])
    by (by destruct ty).
  rewrite Hl, (findIndex_from_first _ _ _ 0 Hb), Z.add_0_l.
  rewrite splice_one_at, app_nil_r.
  destruct (listeners (sess w)); by destruct ty.
Qed.

Lemma on_then_removeListener_witness :
  let w := snd (on Ev_error 7%nat (snd (on Ev_update 2%nat (new_session "s")))) in
  (5%nat ∉ listeners_of Ev_update (listeners (sess w)))
  ∧ listeners (sess (snd (removeListener Ev_update 5%nat
                            (snd (on Ev_update 5%nat w)))))
    = listeners (sess w).
Proof.
  intros w.
  assert (H : 5%nat ∉ listeners_of Ev_update (listeners (sess w)))
    by (apply (bool_decide_unpack _); vm_compute; exact I).
  split; [exact H|].
  exact (on_then_removeListener w Ev_update 5%nat H).
Defined.

(** ** Every queued action is flushed *)

Lemma applyActions_host actions r w :
  now (host (snd (applyActions actions r w))) = now (host w)
  ∧ timers (host (snd (applyActions actions r w))) = timers (host w).
Proof.
  destruct (applyActions_cases actions r w)
    as [(e & m & tr & _ & _ & ->)|(st' & tr & _ & _ & ->)]; by simpl.
Qed.

Lemma deadlines_within_single h d delay w :
  timers (host w) = [(h, d)] →
  d <= now (host w) + delay →
  deadlines_within delay w.
Proof.
  intros Ht Hd h' d' Hin. rewrite Ht in Hin.
  apply list_elem_of_singleton in Hin. injection Hin as -> ->. exact Hd.
Qed.

Lemma deadlines_within_none delay w :
  timers (host w) = [] → deadlines_within delay w.
Proof. intros Ht h d Hin. rewrite Ht in Hin. by apply elem_of_nil in Hin. Qed.

(** In every world a session can be in, an armed timer is due within the
    quiet window. *)
Lemma reachable_deadlines w : reachable w → deadlines_within 500 w.
Proof.
  induction 1 as [id|w c Hr IH Hadm].
  - by apply deadlines_within_none.
  - pose proof (reachable_debounce_inv w Hr) as Hinv.
    unfold debounce_inv in Hinv.
    assert (Hq : ∀ a, deadlines_within 500 (snd (queueAction a w))).
    { intros a.
      destruct (queueAction_fields a w) as (_ & _ & Hts & Hnow & _).
      apply (deadlines_within_single (next_handle (host w))
               (now (host w) + 500)); [|lia].
      rewrite Hts. destruct (syncTimer (sess w)) as [t|].
      - destruct Hinv as [[d ->] _]. by rewrite disarm_single.
      - by destruct Hinv as [-> _]. }
    destruct c; simpl; try apply Hq; try exact IH.
    + simpl in Hadm. destruct (syncTimer (sess w)) as [t|] eqn:T.
      * destruct Hinv as [[d Hd] _].
        destruct (Z_le_gt_dec d (now (host w) + dt)) as [Hle|Hgt].
        -- rewrite (advance_fires dt w t d Hd Hle).
           match goal with
           | |- deadlines_within _ (snd (syncQueuedActions ?W)) =>
               destruct (syncQueuedActions_fields W) as (_ & _ & _ & Hts & _)
           end.
           apply deadlines_within_none. rewrite Hts. simpl. by rewrite T.
        -- rewrite advance_quiet
             by (rewrite Hd; apply due_single_early; lia).
           apply (deadlines_within_single t d); [done|]. simpl.
           specialize (IH t d). rewrite Hd in IH.
           specialize (IH ltac:(by apply list_elem_of_singleton)). lia.
      * destruct Hinv as [Hts _].
        rewrite advance_quiet by (by rewrite Hts).
        by apply deadlines_within_none.
    + munfold.
      assert (Hres : now (host (snd (resume r w))) = now (host w)
                     ∧ timers (host (snd (resume r w))) = timers (host w)).
      { destruct r as [e|response]; simpl.
        - unfold handleError. munfold. simpl.
          by destruct (instanceof_DialobRequestError e).
        - munfold.
          destruct (applyActions_host (response_actions response)
                      (Some (response_rev response)) w) as [Hn Ht].
          by destruct (applyActions _ _ w) as [[st'|e] w1]. }
      destruct Hres as [Hn Ht].
      assert (Hd : deadlines_within 500 (snd (resume r w))).
      { intros h d Hin. rewrite Ht in Hin. rewrite Hn. by apply (IH h d). }
      by destruct (resume r w) as [[x|e] w1].
Qed.

(** No queued action waits for ever: in every world a session can be in,
    if actions are queued and nothing else happens for 500ms, the timer
    fires and the whole queue is sent in one call of the transport, with
    the [rev] of the snapshot; if nothing is queued, the passing of time
    causes no call at all. *)
Theorem queued_actions_are_sent_within_window (w : World) (dt : Z) :
  reachable w →
  (syncActionQueue (sess w) ≠ [] →
   transport_calls (trace (host (snd (advance 500 w))))
   = transport_calls (trace (host w))
     ++ [Transport_update (session_id (sess w)) (syncActionQueue (sess w))
           (rev (state (sess w)))]
   ∧ idle (snd (advance 500 w)))
  ∧ (syncActionQueue (sess w) = [] →
     trace (host (snd (advance dt w))) = trace (host w)).
Proof.
  intros Hr. pose proof (reachable_debounce_inv w Hr) as Hinv.
  pose proof (reachable_deadlines w Hr) as Hdl.
  unfold debounce_inv in Hinv.
  destruct (syncTimer (sess w)) as [t|] eqn:T.
  - destruct Hinv as [[d Hd] Hq]. split; [|done]. intros _.
    assert (Hle : d <= now (host w) + 500).
    { apply (Hdl t). rewrite Hd. by apply list_elem_of_singleton. }
    rewrite (advance_fires 500 w t d Hd Hle).
    match goal with
    | |- context [syncQueuedActions ?W] =>
        destruct (syncQueuedActions_calls W) as (Hcalls & _);
        destruct (syncQueuedActions_fields W) as (_ & Hq' & Ht' & Hts' & _)
    end.
    cbn [sess host now timers next_handle trace] in *.
    split; [exact Hcalls|]. unfold idle. by rewrite Ht', Hts', Hq', T.
  - destruct Hinv as [Hts Hq]. split; [done|]. intros _.
    by rewrite advance_quiet by (by rewrite Hts).
Qed.

Lemma queued_actions_are_sent_within_window_witness :
  let w := snd (advance 499 (snd (perform (Do_setAnswer "zz" VNull)
                                    (snd (perform Do_next (new_session "s")))))) in
  reachable w
  ∧ syncActionQueue (sess w) ≠ []
  ∧ transport_calls (trace (host (snd (advance 500 w))))
    = [Transport_update "s" [NEXT; ANSWER "zz" VNull] 0]
  ∧ idle (snd (advance 500 w)).
Proof.
  intros w.
  assert (Hr : reachable w).
  { apply (reachable_perform _ (Do_advance 499)); [|simpl; lia].
    apply (reachable_perform _ (Do_setAnswer "zz" VNull)); [|exact I].
    apply (reachable_perform _ Do_next); [|exact I].
    apply reachable_new. }
  assert (Hq : syncActionQueue (sess w) ≠ []) by (vm_compute; discriminate).
  destruct (proj1 (queued_actions_are_sent_within_window w 0 Hr) Hq)
    as (Hcalls & Hidle).
  split; [exact Hr|]. split; [exact Hq|]. split; [exact Hcalls|exact Hidle].
Defined.
